(** * Cardinal B-splines on Lie groups: a shallow embedding of
      [smooth/interp/bspline.hpp] and of the parts of [lie_group_base.hpp]
      it relies on.

    Scalars ([double], and the template parameter [Scalar]) are modelled by
    the exact rationals [Qc]: every statement below is about the real-number
    semantics of the program, not about rounding.  Integers keep the width the
    C++ types give them wherever the code mixes signed and unsigned
    arithmetic.  Exceptions and undefined behaviour are explicit results. *)

From stdpp Require Import base numbers list strings pretty.
From Stdlib Require Import QArith Qcanon.

Local Open Scope Qc_scope.

(** ** Scalars, vectors and matrices *)

Abbreviation Scalar := Qc (only parsing).
Abbreviation double := Qc (only parsing).

(** [static_cast<Scalar>(n)] and [Scalar(n)] for an unsigned or signed integer. *)
Definition Scalar_of_Z (z : Z) : Scalar := Q2Qc (inject_Z z).
Definition Scalar_of_nat (n : nat) : Scalar := Scalar_of_Z (Z.of_nat n).

(** [Eigen::Matrix<Scalar, N, 1>] and row vectors. *)
Abbreviation Vector := (list Scalar) (only parsing).
(** Row-major matrices: [StaticMatrix<Scalar, R, C>] and [Eigen::Matrix]. *)
Abbreviation Matrix := (list (list Scalar)) (only parsing).

Definition vget (v : Vector) (k : nat) : Scalar := default 0 (v !! k).
Definition setZero (v : Vector) : Vector := (λ _, 0) <$> v.
Definition dot (a b : Vector) : Scalar := foldr Qcplus 0 (zip_with Qcmult a b).
Definition vscale (c : Scalar) (v : Vector) : Vector := Qcmult c <$> v.
Definition vadd (a b : Vector) : Vector := zip_with Qcplus a b.
Definition vdiv (v : Vector) (c : Scalar) : Vector := (λ x, x / c) <$> v.

(** Modelled from the spec: [smooth/meta.hpp], which declares [StaticMatrix]
    with its [operator*], [operator+] and [transpose], is not among the
    sources.  The spec calls it a matrix of scalars that is multiplied, added
    and read transposed ([mmul], [madd], [transpose] below); a
    default-constructed one holds zeros ([zeros]: it is built in a constant
    expression, where every entry must be initialised).  [mget] and [mset]
    are [m[i][j]] read and written. *)
Definition zeros (r c : nat) : Matrix := replicate r (replicate c 0).
Definition mget (m : Matrix) (i j : nat) : Scalar := default 0 (m !! i ≫= (.!! j)).
Definition mset (m : Matrix) (i j : nat) (x : Scalar) : Matrix :=
  alter (λ row, <[j:=x]> row) i m.
Definition mrow (m : Matrix) (i : nat) : Vector := default [] (m !! i).
Definition mcol (m : Matrix) (j : nat) : Vector := (λ row, vget row j) <$> m.
Definition ncols (m : Matrix) : nat := length (default [] (head m)).
Definition transpose (m : Matrix) : Matrix := mcol m <$> seq 0 (ncols m).
Definition mmul (a b : Matrix) : Matrix := (λ row, dot row <$> transpose b) <$> a.
Definition madd (a b : Matrix) : Matrix := zip_with vadd a b.
Definition msub (a b : Matrix) : Matrix := zip_with (zip_with Qcminus) a b.
Definition mneg (a : Matrix) : Matrix := (λ row : Vector, Qcopp <$> row) <$> a.
Definition mscale (c : Scalar) (a : Matrix) : Matrix := vscale c <$> a.
Definition mvec (a : Matrix) (v : Vector) : Vector := (λ row, dot row v) <$> a.

(** [m.block<nr, nc>(r0, c0)], read and written. *)
Definition block (m : Matrix) (r0 c0 nr nc : nat) : Matrix :=
  (λ row, take nc (drop c0 row)) <$> take nr (drop r0 m).
Definition set_block (m : Matrix) (r0 c0 : nat) (b : Matrix) : Matrix :=
  imap (λ i row,
    if decide (r0 ≤ i)%nat then
      match b !! (i - r0)%nat with
      | Some brow => take c0 row ++ brow ++ drop (c0 + length brow) row
      | None => row
      end
    else row) m.

(** ** Failures *)

Inductive failure : Type :=
  | runtime_error (what : string)       (* [std::runtime_error] *)
  | bad_optional_access                 (* [std::optional::value] on an empty optional *)
  | out_of_range_access (index : Z)     (* undefined: an iterator read outside its range *)
  | negative_drop (count : Z)           (* undefined: [std::views::drop] of a negative count *)
  | float_cast_overflow.                (* undefined: a [double] outside [int64_t] *)

#[global] Instance failure_eq_dec : EqDecision failure.
Proof. solve_decision. Defined.

Definition Result (A : Type) : Type := failure + A.

#[global] Instance Result_ret : MRet Result := λ A x, inr x.
#[global] Instance Result_bind : MBind Result := λ A B f m,
  match m with
  | inl e => inl e
  | inr x => f x
  end.

(** A range-based or counted [for] loop whose body may fail. *)
Fixpoint for_each {A S : Type} (body : S → A → Result S) (l : list A) (s : S) : Result S :=
  match l with
  | [] => mret s
  | x :: l => s' ← body s x; for_each body l s'
  end.

(** [o.value()] *)
Definition value {A : Type} (o : option A) : Result A :=
  match o with
  | Some a => mret a
  | None => inl bad_optional_access
  end.

Definition has_value {A : Type} (o : option A) : bool :=
  match o with
  | Some _ => true
  | None => false
  end.

(** [*(std::ranges::begin(r) + i)] for a signed offset [i]. *)
Definition deref {A : Type} (r : list A) (i : Z) : Result A :=
  if decide (0 ≤ i)%Z then
    match r !! Z.to_nat i with
    | Some x => mret x
    | None => inl (out_of_range_access i)
    end
  else inl (out_of_range_access i).

(** [std::to_string] of a [std::size_t]. *)
Definition to_string (n : nat) : string := pretty n.

(** ** Compile-time coefficient matrices (namespace [detail]) *)

Module detail.

Fixpoint card_coeffmat (K : nat) : Matrix :=
  match K with
  | O => mset (zeros 1 1) 0 0 1
  | S Km1 =>
    let K := S Km1 in
    let coeff_mat_km1 := card_coeffmat Km1 in
    let '(low, high) :=
      foldl (λ lh i,
        foldl (λ '(low, high) j,
          (mset low i j (mget coeff_mat_km1 i j),
           mset high (i + 1) j (mget coeff_mat_km1 i j)))
          lh (seq 0 K))
        (zeros (K + 1) K, zeros (K + 1) K) (seq 0 K) in
    let '(left_, right_) :=
      foldl (λ '(left_, right_) k,
        let left_ := mset left_ k (k + 1) (Scalar_of_nat (K - (k + 1)) / Scalar_of_nat K) in
        let left_ := mset left_ k k (1 - mget left_ k (k + 1)) in
        let right_ := mset right_ k (k + 1) (1 / Scalar_of_nat K) in
        let right_ := mset right_ k k (- mget right_ k (k + 1)) in
        (left_, right_))
        (zeros K (K + 1), zeros K (K + 1)) (seq 0 K) in
    madd (mmul low left_) (mmul high right_)
  end.

(** The inner loop of [cum_card_coeffmat] on row [i]:
    [ret[i][K - 1 - j] += ret[i][K - j]] for [j = 0 .. K-1]. *)
Definition cum_row_loop (K i : nat) (ret : Matrix) : Matrix :=
  foldl (λ ret j,
    mset ret i (K - 1 - j) (mget ret i (K - 1 - j) + mget ret i (K - j)))
    ret (seq 0 K).

Definition cum_card_coeffmat (K : nat) : Matrix :=
  foldl (λ ret i, cum_row_loop K i ret) (card_coeffmat K) (seq 0 (K + 1)).

End detail.

(** ** The Lie group contract *)

Abbreviation Tangent := (list Scalar) (only parsing).

(** Modelled from the spec: [smooth/concepts.hpp], which declares the
    [LieGroup] concept, is not among the sources.  The operations are the
    ones section 4.1 of the spec lists and [bspline.hpp] calls;
    [setIdentity] is what [LieGroupBase::Identity] builds on. *)
Class LieGroup (G : Type) : Type := {
  Dof : nat;
  setIdentity : G;
  compose : G → G → G;
  inverse : G → G;
  exp : Tangent → G;
  log : G → Tangent;
  Ad : G → Matrix;
  ad : Tangent → Matrix;
  dr_exp : Tangent → Matrix;
  dr_expinv : Tangent → Matrix;
}.

Infix "∘G" := compose (at level 40, left associativity).

(** What [LieGroupBase] derives from the contract. *)
Section LieGroupBase.
Context {G : Type} `{!LieGroup G}.

Definition Identity : G := setIdentity.
(** [g + a := g * exp(a)] *)
Definition rplus (g : G) (a : Tangent) : G := g ∘G exp a.
(** [g1 - g2 := (g2.inverse() * g1).log()] *)
Definition rminus (g1 g2 : G) : Tangent := log (inverse g2 ∘G g1).
Definition dl_exp (t : Tangent) : Matrix := mmul (Ad (exp t)) (dr_exp t).
Definition dl_expinv (t : Tangent) : Matrix := madd (mneg (ad t)) (dr_expinv t).
End LieGroupBase.

(** ** The evaluator [bspline_eval] *)

Definition vneg (v : Vector) : Vector := Qcopp <$> v.

(** What a call leaves behind: the returned element and the contents of the
    optional output buffers [vel], [acc] and [der] (absent when the caller
    passed none). *)
Record outputs (G : Type) : Type := Outputs {
  out_ret : G;
  out_vel : option Tangent;
  out_acc : option Tangent;
  out_der : option Matrix;
}.
#[global] Instance outputs_eq_dec {G : Type} `{!EqDecision G} : EqDecision (outputs G).
Proof. solve_decision. Defined.

Arguments Outputs {G} _ _ _ _.
Arguments out_ret {G} _.
Arguments out_vel {G} _.
Arguments out_acc {G} _.
Arguments out_der {G} _.

(** The vectors [uvec], [duvec], [d2uvec] of [bspline_eval]; [want_vel] is
    [vel.has_value() || acc.has_value()] and [want_acc] is [acc.has_value()].
    Entries the code leaves unwritten are never read; they are zero here. *)
Definition power_vectors (K : nat) (u : Scalar) (want_vel want_acc : bool)
  : list Scalar * list Scalar * list Scalar :=
  let uvec := <[0%nat := 1]> (replicate (K + 1) 0) in
  let duvec := <[0%nat := 0]> (replicate (K + 1) 0) in
  let d2uvec := <[0%nat := 0]> (replicate (K + 1) 0) in
  foldl (λ '(uvec, duvec, d2uvec) k,
    let uvec := <[k := u * vget uvec (k - 1)]> uvec in
    if want_vel then
      let duvec := <[k := Scalar_of_nat k * vget uvec (k - 1)]> duvec in
      if want_acc then
        (uvec, duvec, <[k := Scalar_of_nat k * vget duvec (k - 1)]> d2uvec)
      else (uvec, duvec, d2uvec)
    else (uvec, duvec, d2uvec))
    (uvec, duvec, d2uvec) (seq 1 K).

Section Evaluator.
Context {G : Type} `{!LieGroup G}.

(** The body of the loop over [diff_points]; the state is [(j, g, vel, acc)]. *)
Definition fold_step (uvec duvec d2uvec : list Scalar) (M : Matrix)
    (st : nat * G * option Tangent * option Tangent) (v : Tangent)
  : Result (nat * G * option Tangent * option Tangent) :=
  let '(j, g, vel, acc) := st in
  let Btilde := dot uvec (mrow M j) in
  let g := g ∘G exp (vscale Btilde v) in
  '(vel, acc) ←
    (if has_value vel || has_value acc then
       let dBtilde := dot duvec (mrow M j) in
       let Ad_ := Ad (exp (vscale (- Btilde) v)) in
       velv ← value vel;
       let velv := mvec Ad_ velv in
       let velv := vadd velv (vscale dBtilde v) in
       acc ← (if has_value acc then
                let d2Btilde := dot d2uvec (mrow M j) in
                accv ← value acc;
                let accv := mvec Ad_ accv in
                let accv :=
                  vadd accv (vadd (mvec (mscale dBtilde (ad velv)) v) (vscale d2Btilde v)) in
                mret (Some accv)
              else mret acc);
       mret (Some velv, acc)
     else mret (vel, acc));
  mret (S j, g, vel, acc).

(** The body of the loop [for (int j = K; j >= 0; --j)] that fills [der];
    the state is [(z2inv, der)]. *)
Definition der_step (K : nat) (uvec : list Scalar) (M : Matrix) (diff_points : list Tangent)
    (st : G * Matrix) (j : nat) : Result (G * Matrix) :=
  let '(z2inv, der) := st in
  '(z2inv, der) ←
    (if decide (j ≠ K) then
       let Btilde_jp := dot uvec (mrow M (j + 1)) in
       vjp ← deref diff_points (Z.of_nat j);
       let sjp := vscale Btilde_jp vjp in
       let der :=
         set_block der 0 (j * Dof)
           (msub (block der 0 (j * Dof) Dof Dof)
              (mmul (mmul (mscale Btilde_jp (Ad z2inv)) (dr_exp sjp)) (dl_expinv vjp))) in
       mret (z2inv ∘G exp (vneg sjp), der)
     else mret (z2inv, der));
  let Btilde_j := dot uvec (mrow M j) in
  vj ← deref diff_points (Z.of_nat j - 1);
  let der :=
    set_block der 0 (j * Dof)
      (madd (block der 0 (j * Dof) Dof Dof)
         (mmul (mmul (mscale Btilde_j (Ad z2inv)) (dr_exp (vscale Btilde_j vj)))
            (dr_expinv vj))) in
  mret (z2inv, der).

(** Displacement form: [bspline_eval<K, G>(g_0, diff_points, u, vel, acc, der)]. *)
Definition bspline_eval (K : nat) (g_0 : G) (diff_points : list Tangent) (u : Scalar)
    (vel acc : option Tangent) (der : option Matrix) : Result (outputs G) :=
  if decide (length diff_points ≠ K) then
    inl (runtime_error ("bspline: diff_points range must be size K=" +:+ to_string K
                        +:+ ", got " +:+ to_string (length diff_points)))
  else
    let '(uvec, duvec, d2uvec) :=
      power_vectors K u (has_value vel || has_value acc) (has_value acc) in
    let M := transpose (detail.cum_card_coeffmat K) in
    '(vel, acc) ←
      (if has_value vel || has_value acc then
         velv ← value vel;
         mret (Some (setZero velv), setZero <$> acc)
       else mret (vel, acc));
    '(_, g, vel, acc) ← for_each (fold_step uvec duvec d2uvec M) diff_points (1%nat, g_0, vel, acc);
    der ←
      match der with
      | Some d =>
        '(_, d) ← for_each (der_step K uvec M diff_points) (reverse (seq 0 (K + 1)))
                    (Identity, setZero <$> d);
        mret (Some d)
      | None => mret None
      end;
    mret (Outputs g vel acc der).

(** Control-point form: [bspline_eval<K, G>(ctrl_points, u, vel, acc, der)].
    The iterators [b1], [b2] are offsets into [ctrl_points]; the entries of
    the local [diff_pts] array start out as zero vectors. *)
Definition bspline_eval_ctrl (K : nat) (ctrl_points : list G) (u : Scalar)
    (vel acc : option Tangent) (der : option Matrix) : Result (outputs G) :=
  if decide (length ctrl_points ≠ (K + 1)%nat) then
    inl (runtime_error ("bspline: ctrl_points range must be size K+1=" +:+ to_string (K + 1)
                        +:+ ", got " +:+ to_string (length ctrl_points)))
  else
    '(_, _, diff_pts) ←
      for_each (λ '(b1, b2, diff_pts) i,
        x1 ← deref ctrl_points b1;
        x2 ← deref ctrl_points b2;
        mret ((b1 + 1)%Z, (b2 + 1)%Z, <[i := log (inverse x1 ∘G x2)]> diff_pts))
        (seq 0 K) (0%Z, 1%Z, replicate K (replicate Dof 0));
    g_0 ← deref ctrl_points 0;
    bspline_eval K g_0 diff_pts u vel acc der.

(** ** The spline object [BSpline<K, G>] *)

Record BSpline : Type := MkBSpline {
  t0_ : double;
  dt_ : double;
  ctrl_pts_ : list G;
}.

(** [BSpline()] *)
Definition BSpline_default (K : nat) : BSpline :=
  {| t0_ := 0; dt_ := 1; ctrl_pts_ := replicate (K + 1) Identity |}.

(** [BSpline(double t0, double dt, std::vector<G> && ctrl_pts)] *)
Definition BSpline_of_vector (t0 dt : double) (ctrl_pts : list G) : Result BSpline :=
  mret {| t0_ := t0; dt_ := dt; ctrl_pts_ := ctrl_pts |}.

(** [BSpline(double t0, double dt, const R & ctrl_pts)], which copies the range. *)
Definition BSpline_of_range (t0 dt : double) (ctrl_pts : list G) : Result BSpline :=
  mret {| t0_ := t0; dt_ := dt; ctrl_pts_ := ctrl_pts |}.

(** Arithmetic on [std::size_t] wraps modulo 2^64; the conversion to
    [int64_t] reads the same bits as a signed number. *)
Definition size_t (z : Z) : Z := (z mod 2 ^ 64)%Z.
Definition int64_t (z : Z) : Z := (if decide (z < 2 ^ 63) then z else z - 2 ^ 64)%Z.

(** [static_cast<int64_t>(x)] of a [double]: the fraction is discarded
    (rounding towards zero); outside the range of [int64_t] it is undefined. *)
Definition static_cast_int64 (x : double) : Result Z :=
  let z := (Qnum x ÷ Zpos (Qden x))%Z in
  if decide (- 2 ^ 63 ≤ z < 2 ^ 63)%Z then mret z else inl float_cast_overflow.

Definition t_min (s : BSpline) : double := t0_ s.

Definition t_max (K : nat) (s : BSpline) : double :=
  t0_ s + Scalar_of_Z (size_t (Z.of_nat (length (ctrl_pts_ s)) - Z.of_nat K)) * dt_ s.

(** Lines 270-282 of [eval]: the interval index [istar] and the location [u]. *)
Definition eval_interval (K : nat) (s : BSpline) (t : double) : Result (Z * double) :=
  istar ← static_cast_int64 ((t - t0_ s) / dt_ s);
  let size := Z.of_nat (length (ctrl_pts_ s)) in
  if decide (istar < 0)%Z then mret (0%Z, 0)
  else if decide (size_t (istar + Z.of_nat K + 1) > size)%Z then
    mret (int64_t (size_t (size - Z.of_nat K - 1)), 1)
  else mret (istar, (t - t0_ s - Scalar_of_Z istar * dt_ s) / dt_ s).

(** [ctrl_pts_ | std::views::drop(istar) | std::views::take(K + 1)] *)
Definition window (K : nat) (s : BSpline) (istar : Z) : Result (list G) :=
  if decide (0 ≤ istar)%Z then mret (take (K + 1) (drop (Z.to_nat istar) (ctrl_pts_ s)))
  else inl (negative_drop istar).

(** [eval(t, vel, acc)].  Division by zero is [0] in [Qc] and not an
    infinity, so the model follows the code for [dt ≠ 0] only. *)
Definition eval (K : nat) (s : BSpline) (t : double) (vel acc : option Tangent)
  : Result (outputs G) :=
  '(istar, u) ← eval_interval K s t;
  w ← window K s istar;
  out ← bspline_eval_ctrl K w u vel acc None;
  mret (Outputs (out_ret out)
          ((λ v, vdiv v (dt_ s)) <$> out_vel out)
          ((λ a, vdiv a (dt_ s * dt_ s)) <$> out_acc out)
          (out_der out)).

End Evaluator.

Arguments BSpline G : clear implicits.

(** ** A concrete 3-DoF group: the vector space R^3 under addition *)

Record R3 : Type := MkR3 { r3x : Scalar; r3y : Scalar; r3z : Scalar }.

#[global] Instance R3_eq_dec : EqDecision R3.
Proof. solve_decision. Defined.

Definition eye (n : nat) : Matrix :=
  (λ i, (λ j, if decide (i = j) then 1 else 0) <$> seq 0 n) <$> seq 0 n.

#[global] Instance R3_LieGroup : LieGroup R3 := {|
  Dof := 3;
  setIdentity := MkR3 0 0 0;
  compose := λ a b, MkR3 (r3x a + r3x b) (r3y a + r3y b) (r3z a + r3z b);
  inverse := λ a, MkR3 (- r3x a) (- r3y a) (- r3z a);
  exp := λ v, MkR3 (vget v 0) (vget v 1) (vget v 2);
  log := λ a, [r3x a; r3y a; r3z a];
  Ad := λ _, eye 3;
  ad := λ _, zeros 3 3;
  dr_exp := λ _, eye 3;
  dr_expinv := λ _, eye 3;
|}.

(** ** The laws of the contract

    Section 4.1 of the spec, read exactly (the scalars are exact). *)
Class LieGroupLaws (G : Type) `{!LieGroup G} : Prop := {
  compose_assoc : ∀ a b c : G, (a ∘G b) ∘G c = a ∘G (b ∘G c);
  compose_Identity_l : ∀ g : G, Identity ∘G g = g;
  compose_Identity_r : ∀ g : G, g ∘G Identity = g;
  compose_inverse_r : ∀ g : G, g ∘G inverse g = Identity;
  exp_zero : exp (replicate Dof 0) = (Identity : G);
  exp_log : ∀ g : G, exp (log g) = g;
}.

(** ** Reference definitions, written from the spec's words *)

(** "A right-to-left running sum across matrix columns": every entry becomes
    the sum of itself and of all entries to its right. *)
Definition running_sum_rtl (row : list Scalar) : list Scalar :=
  foldr (λ x sums, (x + default 0 (head sums)) :: sums) [] row.

(** The power vector [[1, u, ..., u^K]]. *)
Definition powers (K : nat) (u : Scalar) : list Scalar := (λ k, u ^ k) <$> seq 0 (K + 1).

(** The cumulative basis polynomial [B̃_j] of degree [K] at [u]: the power
    vector against the coefficients of basis function [j], which are column
    [j] of the cumulative coefficient matrix. *)
Definition Btilde (K j : nat) (u : Scalar) : Scalar :=
  dot (powers K u) (mcol (detail.cum_card_coeffmat K) j).

(** The left-to-right product [g0 * exp(B̃_1(u) v_1) * ... * exp(B̃_K(u) v_K)]. *)
Definition cumulative_product {G : Type} `{!LieGroup G} (K : nat) (g0 : G)
    (vs : list Tangent) (u : Scalar) : G :=
  foldl (λ g '(j, v), g ∘G exp (vscale (Btilde K j u) v)) g0 (zip (seq 1 (length vs)) vs).

(** "v_i = log(ctrl[i-1]⁻¹ · ctrl[i])" for [i = 1..K]: entry [i - 1] of the
    list pairs control point [i - 1] with its successor. *)
Definition derived_displacements {G : Type} `{!LieGroup G} (ctrl : list G) : list Tangent :=
  zip_with (λ a b, log (inverse a ∘G b)) ctrl (tail ctrl).

(** A matrix with [r] rows of [c] entries each. *)
Definition shape (r c : nat) (m : Matrix) : Prop :=
  length m = r ∧ Forall (λ row : list Scalar, length row = c) m.

(** The loop [ret[i][K - 1 - j] += ret[i][K - j]] seen on one row. *)
Definition row_loop (K : nat) (row : list Scalar) : list Scalar :=
  foldl (λ row j, <[(K - 1 - j)%nat := vget row (K - 1 - j) + vget row (K - j)]> row)
    row (seq 0 K).

(** ** Closed forms used by the further properties *)

(** The derivatives of the power vector with respect to [u]:
    [k u^(k-1)] and [k (k-1) u^(k-2)] for [k = 0..K]. *)
Definition dpowers (K : nat) (u : Scalar) : list Scalar :=
  (λ k, Scalar_of_nat k * u ^ (k - 1)) <$> seq 0 (K + 1).
Definition d2powers (K : nat) (u : Scalar) : list Scalar :=
  (λ k, Scalar_of_nat k * Scalar_of_nat (k - 1) * u ^ (k - 2)) <$> seq 0 (K + 1).

(** The sum of the entries of a vector. *)
Definition vsum (v : list Scalar) : Scalar := foldr Qcplus 0 v.

(** The two band matrices that [card_coeffmat<K>] multiplies with, in closed
    form: row [k] of [left] holds [(k + 1) / K] in column [k] and
    [(K - (k + 1)) / K] in column [k + 1]; row [k] of [right] holds [-1 / K]
    and [1 / K] there. *)
Definition left_matrix (K : nat) : Matrix :=
  (λ k, let a := Scalar_of_nat (K - (k + 1)) / Scalar_of_nat K in
        <[k := 1 - a]> (<[(k + 1)%nat := a]> (replicate (K + 1) 0))) <$> seq 0 K.
Definition right_matrix (K : nat) : Matrix :=
  (λ k, let b := 1 / Scalar_of_nat K in
        <[k := - b]> (<[(k + 1)%nat := b]> (replicate (K + 1) 0))) <$> seq 0 K.

(** ** Generic facts about loops and results *)

Lemma foldl_invariant {A B : Type} (P : A → Prop) (f : A → B → A) (l : list B) (a : A) :
  P a → (∀ a b, P a → P (f a b)) → P (foldl f a l).
Proof.
  intros Ha Hstep. revert a Ha.
  induction l as [|b l IH]; intros a Ha; simpl; [done|].
  apply IH, Hstep, Ha.
Qed.

Lemma for_each_app {A S : Type} (body : S → A → Result S) (l k : list A) (s : S) :
  for_each body (l ++ k) s = s' ← for_each body l s; for_each body k s'.
Proof.
  revert s. induction l as [|x l IH]; intros s; simpl; [done|].
  destruct (body s x) as [e|s']; simpl; [done|]. apply IH.
Qed.

Lemma deref_nat {A : Type} (r : list A) (n : nat) x :
  r !! n = Some x → deref r (Z.of_nat n) = inr x.
Proof.
  intros Hn. unfold deref. rewrite decide_True by lia.
  by rewrite Nat2Z.id, Hn.
Qed.

Lemma is_Some_iff_None {A B : Type} (o : option A) :
  (is_Some o ↔ is_Some (@None B)) → o = None.
Proof.
  intros Ho. destruct o as [a|]; [|done].
  destruct (proj1 Ho) as [? [=]]. by eexists.
Qed.

Lemma insert_app_length {A : Type} (l1 : list A) x y l2 n :
  length l1 = n → <[n := y]> (l1 ++ x :: l2) = l1 ++ y :: l2.
Proof. intros <-. by rewrite <-(Nat.add_0_r (length l1)), insert_app_r. Qed.

Lemma seq_snoc (start n : nat) : seq start (S n) = seq start n ++ [(start + n)%nat].
Proof. by rewrite seq_S. Qed.

(** ** Shapes of matrices *)

Lemma shape_zeros r c : shape r c (zeros r c).
Proof.
  split; [apply length_replicate|].
  apply Forall_replicate, length_replicate.
Qed.

Lemma shape_mset r c m i j x : shape r c m → shape r c (mset m i j x).
Proof.
  intros [Hr Hc]. split; unfold mset.
  - by rewrite length_alter.
  - apply Forall_alter; [done|]. intros row _ Hrow. by rewrite length_insert.
Qed.

Lemma shape_ncols r c m : shape (S r) c m → ncols m = c.
Proof.
  intros [Hr Hc]. unfold ncols.
  destruct m as [|row m]; [done|]. simpl. by inversion Hc.
Qed.

Lemma shape_mmul r c m b : length m = r → ncols b = c → shape r c (mmul m b).
Proof.
  intros Hr Hc. split; unfold mmul.
  - by rewrite length_fmap.
  - apply Forall_fmap, Forall_forall. intros row _. simpl.
    unfold transpose. by rewrite !length_fmap, length_seq.
Qed.

Lemma shape_madd r c a b : shape r c a → shape r c b → shape r c (madd a b).
Proof.
  intros [Har Hac] [Hbr Hbc]. split; unfold madd.
  - rewrite length_zip_with. lia.
  - apply Forall_lookup. intros i row Hi.
    apply lookup_zip_with_Some in Hi as (ra & rb & -> & Ha & Hb).
    unfold vadd. rewrite length_zip_with.
    rewrite (Forall_lookup_1 _ _ _ _ Hac Ha), (Forall_lookup_1 _ _ _ _ Hbc Hb). lia.
Qed.

Lemma card_coeffmat_shape K : shape (K + 1) (K + 1) (detail.card_coeffmat K).
Proof.
  destruct K as [|K]; cbn [detail.card_coeffmat].
  - apply shape_mset, shape_zeros.
  - match goal with
    | |- context [foldl ?f (?a, ?b) (seq 0 (S K))] =>
        match type of f with
        | _ → nat → _ =>
          pose proof (foldl_invariant
            (λ p : Matrix * Matrix, shape (S K + 1) (S K) p.1 ∧ shape (S K + 1) (S K) p.2)
            f (seq 0 (S K)) (a, b)) as Hlh
        end
    end.
    destruct (foldl _ (zeros (S K + 1) (S K), _) _) as [low high].
    destruct Hlh as [Hlow Hhigh].
    { split; apply shape_zeros. }
    { intros lh i Hlh. apply foldl_invariant; [done|].
      intros [l h] j [Hl Hh]. split; simpl; by apply shape_mset. }
    match goal with
    | |- context [foldl ?f (?a, ?b) (seq 0 (S K))] =>
        pose proof (foldl_invariant
          (λ p : Matrix * Matrix, shape (S K) (S K + 1) p.1 ∧ shape (S K) (S K + 1) p.2)
          f (seq 0 (S K)) (a, b)) as Hlr
    end.
    destruct (foldl _ (zeros (S K) (S K + 1), _) _) as [left_ right_].
    destruct Hlr as [Hleft Hright].
    { split; apply shape_zeros. }
    { intros [l r] k [Hl Hr]. split; simpl; by repeat apply shape_mset. }
    simpl in *.
    apply shape_madd; apply shape_mmul;
      first [ by destruct Hlow | by destruct Hhigh | by eapply shape_ncols ].
Qed.

(** ** The cumulative transform, row by row *)

Lemma mget_row (m : Matrix) i j row : m !! i = Some row → mget m i j = vget row j.
Proof. intros Hi. unfold mget, vget. by rewrite Hi. Qed.

Lemma mset_row (m : Matrix) i j x row :
  m !! i = Some row → mset m i j x = <[i := <[j := x]> row]> m.
Proof.
  intros Hi. unfold mset. apply list_eq. intros k.
  rewrite list_lookup_alter, list_lookup_insert.
  destruct (decide (i = k)) as [->|Hne].
  - rewrite Hi, decide_True; [done|]. split; [done|]. by eapply lookup_lt_Some.
  - rewrite decide_False; [done|]. by intros [? _].
Qed.

Lemma cum_row_loop_insert K i (m : Matrix) row :
  m !! i = Some row → detail.cum_row_loop K i m = <[i := row_loop K row]> m.
Proof.
  unfold detail.cum_row_loop, row_loop. generalize (seq 0 K) as js.
  intros js. revert m row. induction js as [|j js IH]; intros m row Hi; simpl.
  - by rewrite list_insert_id.
  - rewrite !(mget_row _ _ _ _ Hi), (mset_row _ _ _ _ _ Hi).
    erewrite IH; [by rewrite list_insert_insert_eq|].
    apply list_lookup_insert_eq. by eapply lookup_lt_Some.
Qed.

Lemma running_sum_rtl_cons x row :
  running_sum_rtl (x :: row) = (x + default 0 (head (running_sum_rtl row))) :: running_sum_rtl row.
Proof. done. Qed.

Lemma length_running_sum_rtl row : length (running_sum_rtl row) = length row.
Proof. induction row as [|x row IH]; simpl; [done|]. by rewrite IH. Qed.

Lemma running_sum_rtl_lookup (row : list Scalar) c :
  vget (running_sum_rtl row) c = foldr Qcplus 0 (drop c row).
Proof.
  revert c. induction row as [|x row IH]; intros c.
  - by destruct c.
  - rewrite running_sum_rtl_cons. destruct c as [|c].
    + pose proof (IH 0%nat) as IH0. rewrite drop_0 in IH0.
      rewrite drop_0. cbn [foldr]. rewrite <-IH0.
      unfold vget. by rewrite head_lookup.
    + apply IH.
Qed.

Lemma row_step_at (pre : list Scalar) x suf :
  <[length pre := vget (pre ++ x :: suf) (length pre) + vget (pre ++ x :: suf) (S (length pre))]>
    (pre ++ x :: suf)
  = pre ++ (x + default 0 (head suf)) :: suf.
Proof.
  unfold vget.
  rewrite !lookup_app_r by lia.
  replace (length pre - length pre)%nat with 0%nat by lia.
  replace (S (length pre) - length pre)%nat with 1%nat by lia.
  rewrite <-(Nat.add_0_r (length pre)) at 1.
  rewrite insert_app_r. simpl. by rewrite head_lookup.
Qed.

Lemma row_loop_prefix K (row : list Scalar) m :
  length row = (K + 1)%nat → (m ≤ K)%nat →
  foldl (λ row j, <[(K - 1 - j)%nat := vget row (K - 1 - j) + vget row (K - j)]> row)
    row (seq 0 m)
  = take (K - m) row ++ running_sum_rtl (drop (K - m) row).
Proof.
  intros Hlen. induction m as [|m IH]; intros Hm.
  - simpl. rewrite Nat.sub_0_r.
    destruct (lookup_lt_is_Some_2 row K) as [x Hx]; [lia|].
    rewrite <-(take_drop_middle _ _ _ Hx) at 1.
    rewrite (drop_S _ _ _ Hx), (drop_ge row (S K)) by lia.
    simpl. by rewrite Qcplus_0_r.
  - rewrite seq_snoc, foldl_app, IH by lia. simpl.
    destruct (lookup_lt_is_Some_2 row (K - 1 - m)) as [x Hx]; [lia|].
    replace (K - m)%nat with (S (K - 1 - m)) by lia.
    replace (K - S m)%nat with (K - 1 - m)%nat by lia.
    rewrite (take_S_r _ _ _ Hx), <-app_assoc. simpl.
    assert (length (take (K - 1 - m) row) = (K - 1 - m)%nat) as Hpre
      by (rewrite length_take; lia).
    pose proof (row_step_at (take (K - 1 - m) row) x
                  (running_sum_rtl (drop (S (K - 1 - m)) row))) as Hstep.
    rewrite Hpre in Hstep. rewrite Hstep.
    by rewrite (drop_S _ _ _ Hx), running_sum_rtl_cons.
Qed.

Lemma row_loop_running_sum K (row : list Scalar) :
  length row = (K + 1)%nat → row_loop K row = running_sum_rtl row.
Proof.
  intros Hlen. unfold row_loop. rewrite (row_loop_prefix K row K) by done.
  by rewrite Nat.sub_diag.
Qed.

Lemma foldl_insert_prefix {A : Type} (f : A → A) (m : list A) n :
  (n ≤ length m)%nat →
  foldl (λ l i, match l !! i with Some x => <[i := f x]> l | None => l end) m (seq 0 n)
  = (f <$> take n m) ++ drop n m.
Proof.
  induction n as [|n IH]; intros Hn; [done|].
  rewrite seq_snoc, foldl_app, IH by lia. simpl.
  destruct (lookup_lt_is_Some_2 m n) as [x Hx]; [lia|].
  rewrite lookup_app_r by (rewrite length_fmap, length_take; lia).
  rewrite length_fmap, length_take, Nat.min_l, Nat.sub_diag by lia.
  rewrite (drop_S _ _ _ Hx). simpl.
  rewrite (take_S_r _ _ _ Hx), fmap_app, <-app_assoc. simpl.
  assert (length (f <$> take n m) = n) as Hpre by (rewrite length_fmap, length_take; lia).
  rewrite <-Hpre at 1. rewrite <-(Nat.add_0_r (length _)), insert_app_r. done.
Qed.

Lemma cum_card_coeffmat_rows K :
  detail.cum_card_coeffmat K = running_sum_rtl <$> detail.card_coeffmat K.
Proof.
  destruct (card_coeffmat_shape K) as [Hr Hc].
  unfold detail.cum_card_coeffmat.
  transitivity (foldl (λ l i, match l !! i with
                                | Some x => <[i := row_loop K x]> l
                                | None => l
                                end) (detail.card_coeffmat K) (seq 0 (K + 1))).
  { generalize (seq 0 (K + 1)) as is_. generalize (detail.card_coeffmat K) as m.
    intros m is_. revert m. induction is_ as [|i is_ IH]; intros m; simpl; [done|].
    destruct (m !! i) as [row|] eqn:Hi.
    - by rewrite (cum_row_loop_insert _ _ _ _ Hi).
    - rewrite <-IH. f_equal. unfold detail.cum_row_loop.
      apply foldl_invariant; [done|]. intros m' j ->. unfold mset.
      apply list_eq. intros k. rewrite list_lookup_alter.
      case_decide; subst; [by rewrite Hi|done]. }
  rewrite foldl_insert_prefix by lia.
  rewrite <-Hr, firstn_all, drop_all, app_nil_r.
  apply Forall_fmap_ext. eapply Forall_impl; [exact Hc|].
  intros row Hrow. by apply row_loop_running_sum.
Qed.

Lemma cum_card_coeffmat_shape K : shape (K + 1) (K + 1) (detail.cum_card_coeffmat K).
Proof.
  rewrite cum_card_coeffmat_rows. destruct (card_coeffmat_shape K) as [Hr Hc].
  split; [by rewrite length_fmap|].
  apply Forall_fmap. eapply Forall_impl; [exact Hc|].
  intros row Hrow. simpl. by rewrite length_running_sum_rtl.
Qed.

(** ** The power vector and the rows of [M] *)

Lemma foldl_project {A B C : Type} (π : A → C) (f : A → B → A) (g : C → B → C) l a :
  (∀ a b, π (f a b) = g (π a) b) → π (foldl f a l) = foldl g (π a) l.
Proof.
  intros Hstep. revert a. induction l as [|b l IH]; intros a; simpl; [done|].
  by rewrite IH, Hstep.
Qed.

Lemma foldl_ext_elem {A B : Type} (f g : A → B → A) l a :
  (∀ a b, b ∈ l → f a b = g a b) → foldl f a l = foldl g a l.
Proof.
  revert a. induction l as [|b l IH]; intros a Hfg; simpl; [done|].
  rewrite Hfg by left. apply IH. intros a' b' Hb'. apply Hfg. by right.
Qed.

Lemma uvec_prefix K u m :
  (m ≤ K)%nat →
  foldl (λ uvec k, <[k := u * vget uvec (k - 1)]> uvec) (<[0%nat := 1]> (replicate (K + 1) 0))
    (seq 1 m)
  = ((λ k, u ^ k) <$> seq 0 (m + 1)) ++ replicate (K - m) 0.
Proof.
  induction m as [|m IH]; intros Hm.
  - rewrite Nat.add_1_r, Nat.sub_0_r. done.
  - rewrite seq_snoc, foldl_app, IH by lia. simpl foldl.
    set (P := (λ k, u ^ k) <$> seq 0 (m + 1)).
    assert (length P = S m) as HP by (unfold P; rewrite length_fmap, length_seq; lia).
    rewrite Nat.sub_0_r.
    assert (vget (P ++ replicate (K - m) 0) m = u ^ m) as ->.
    { unfold vget. rewrite lookup_app_l by lia. unfold P.
      by rewrite list_lookup_fmap, lookup_seq_lt by lia. }
    replace (K - m)%nat with (S (K - S m)) by lia. simpl replicate.
    replace (S m) with (length P + 0)%nat at 1 by lia.
    rewrite insert_app_r.
    replace (S m + 1)%nat with (S (m + 1)) by lia.
    rewrite seq_snoc, fmap_app, <-app_assoc. fold P.
    by replace (0 + (m + 1))%nat with (S m) by lia.
Qed.

Lemma power_vectors_uvec K u want_vel want_acc :
  (power_vectors K u want_vel want_acc).1.1 = powers K u.
Proof.
  unfold power_vectors.
  erewrite (foldl_project (λ s : list Scalar * list Scalar * list Scalar, s.1.1) _
              (λ uvec k, <[k := u * vget uvec (k - 1)]> uvec)).
  - simpl. rewrite (uvec_prefix K u K) by done.
    by rewrite Nat.sub_diag, app_nil_r.
  - intros [[uvec duvec] d2uvec] k. by destruct want_vel, want_acc.
Qed.

Lemma mrow_transpose (m : Matrix) j : (j < ncols m)%nat → mrow (transpose m) j = mcol m j.
Proof.
  intros Hj. unfold mrow, transpose.
  by rewrite list_lookup_fmap, lookup_seq_lt.
Qed.

Lemma Btilde_code K u j want_vel want_acc :
  (j ≤ K)%nat →
  dot (power_vectors K u want_vel want_acc).1.1
      (mrow (transpose (detail.cum_card_coeffmat K)) j)
  = Btilde K j u.
Proof.
  intros Hj. unfold Btilde. rewrite power_vectors_uvec, mrow_transpose; [done|].
  pose proof (cum_card_coeffmat_shape K) as Hs.
  rewrite Nat.add_1_r in Hs at 1. rewrite (shape_ncols _ _ _ Hs). lia.
Qed.

(** ** The fold over the displacements *)

Section EvaluatorFacts.
Context {G : Type} `{!LieGroup G}.

Lemma fold_step_run (uvec duvec d2uvec : list Scalar) (M : Matrix) (vs : list Tangent) :
  ∀ j (g : G) vel acc,
    (is_Some acc → is_Some vel) →
    ∃ vel' acc',
      for_each (fold_step uvec duvec d2uvec M) vs (j, g, vel, acc)
      = inr ((j + length vs)%nat,
             foldl (λ g '(j, v), g ∘G exp (vscale (dot uvec (mrow M j)) v)) g
               (zip (seq j (length vs)) vs),
             vel', acc')
      ∧ (is_Some vel' ↔ is_Some vel) ∧ (is_Some acc' ↔ is_Some acc).
Proof.
  induction vs as [|v vs IH]; intros j g vel acc Hva.
  - exists vel, acc. simpl. by rewrite Nat.add_0_r.
  - cbn [for_each fold_step].
    destruct vel as [velv|], acc as [accv|]; simpl;
      try (exfalso; by destruct Hva as [? [=]]).
    all: match goal with
         | |- context [for_each _ _ (?j', ?g', ?vel', ?acc')] =>
             destruct (IH j' g' vel' acc') as (vel'' & acc'' & -> & Hv & Ha);
               [done|]
         end.
    all: exists vel'', acc''; split;
           [by rewrite Nat.add_succ_r|].
    all: rewrite Hv, Ha; split; split; first [done | intros _; eauto].
Qed.

Lemma bspline_eval_split K (g0 : G) (vs : list Tangent) u vel acc der :
  length vs = K → (is_Some acc → is_Some vel) →
  ∃ uvec vel' acc',
    bspline_eval K g0 vs u vel acc der
    = (der' ← match der with
              | Some d =>
                '(_, d) ← for_each
                            (der_step K uvec (transpose (detail.cum_card_coeffmat K)) vs)
                            (reverse (seq 0 (K + 1))) (Identity, setZero <$> d);
                mret (Some d)
              | None => mret None
              end;
       mret (Outputs (cumulative_product K g0 vs u) vel' acc' der'))
    ∧ (is_Some vel' ↔ is_Some vel) ∧ (is_Some acc' ↔ is_Some acc).
Proof.
  intros Hlen Hva. unfold bspline_eval. case_decide; [done|].
  pose proof (λ j, Btilde_code K u j (has_value vel || has_value acc) (has_value acc)) as HB.
  destruct (power_vectors _ _ _ _) as [[uvec duvec] d2uvec]. simpl in HB.
  set (M := transpose (detail.cum_card_coeffmat K)) in *.
  assert (∃ vel0 acc0,
    (if has_value vel || has_value acc
     then velv ← value vel; mret (Some (setZero velv), setZero <$> acc)
     else mret (vel, acc)) = inr (vel0, acc0)
    ∧ (is_Some vel0 ↔ is_Some vel) ∧ (is_Some acc0 ↔ is_Some acc))
    as (vel0 & acc0 & -> & Hv0 & Ha0).
  { destruct vel as [velv|], acc as [accv|]; simpl;
      try (exfalso; by destruct Hva as [? [=]]).
    all: eexists _, _; split; [reflexivity|].
    all: split; split; first [done | intros _; eauto]. }
  simpl.
  destruct (fold_step_run uvec duvec d2uvec M vs 1%nat g0 vel0 acc0)
    as (vel' & acc' & -> & Hv & Ha); [by rewrite Hv0, Ha0|].
  simpl. exists uvec, vel', acc'. rewrite Hv, Ha. split; [|done].
  assert (foldl (λ (g : G) '(j, v), g ∘G exp (vscale (dot uvec (mrow M j)) v)) g0
            (zip (seq 1 (length vs)) vs) = cumulative_product K g0 vs u) as ->; [|done].
  unfold cumulative_product.
  apply foldl_ext_elem. intros g [j v] Hjv.
  apply elem_of_zip_l, elem_of_seq in Hjv. rewrite HB by lia. done.
Qed.

Lemma bspline_eval_no_der K (g0 : G) (vs : list Tangent) u vel acc :
  length vs = K → (is_Some acc → is_Some vel) →
  ∃ vel' acc',
    bspline_eval K g0 vs u vel acc None
    = inr (Outputs (cumulative_product K g0 vs u) vel' acc' None)
    ∧ (is_Some vel' ↔ is_Some vel) ∧ (is_Some acc' ↔ is_Some acc).
Proof.
  intros Hlen Hva.
  destruct (bspline_eval_split K g0 vs u vel acc None Hlen Hva)
    as (uvec & vel' & acc' & -> & Hv & Ha).
  by exists vel', acc'.
Qed.

Lemma bspline_eval_acc_without_vel K (g0 : G) (vs : list Tangent) u accv der :
  length vs = K → bspline_eval K g0 vs u None (Some accv) der = inl bad_optional_access.
Proof.
  intros Hlen. unfold bspline_eval. case_decide; [done|].
  by destruct (power_vectors _ _ _ _) as [[uvec duvec] d2uvec].
Qed.

(** *** The loop that fills [der] *)

Lemma for_each_ok {A S : Type} (body : S → A → Result S) (l : list A) :
  (∀ s x, x ∈ l → ∃ s', body s x = inr s') → ∀ s, ∃ s', for_each body l s = inr s'.
Proof.
  induction l as [|x l IH]; intros Hbody s; simpl; [by eexists|].
  destruct (Hbody s x) as [s' ->]; [by left|]. simpl.
  apply IH. intros s'' y Hy. apply Hbody. by right.
Qed.

Lemma der_step_ok K uvec (M : Matrix) (vs : list Tangent) (st : G * Matrix) j :
  length vs = K → (1 ≤ j ≤ K)%nat → ∃ st', der_step K uvec M vs st j = inr st'.
Proof.
  intros Hlen Hj. unfold der_step. destruct st as [z2inv d].
  destruct (lookup_lt_is_Some_2 vs (j - 1)) as [vj Hvj]; [lia|].
  replace (Z.of_nat j - 1)%Z with (Z.of_nat (j - 1)) by lia.
  case_decide.
  - destruct (lookup_lt_is_Some_2 vs j) as [vjp Hvjp]; [lia|].
    rewrite (deref_nat _ _ _ Hvjp). simpl.
    rewrite (deref_nat _ _ _ Hvj). simpl. by eexists.
  - simpl. rewrite (deref_nat _ _ _ Hvj). simpl. by eexists.
Qed.

Lemma der_step_first_point K uvec (M : Matrix) (vs : list Tangent) (st : G * Matrix) :
  length vs = K → der_step K uvec M vs st 0 = inl (out_of_range_access (-1)).
Proof.
  intros Hlen. unfold der_step. destruct st as [z2inv d].
  case_decide.
  - destruct (lookup_lt_is_Some_2 vs 0) as [vjp Hvjp]; [lia|].
    by rewrite (deref_nat _ _ _ Hvjp).
  - done.
Qed.

Lemma der_loop_fails K uvec (M : Matrix) (vs : list Tangent) (st : G * Matrix) :
  length vs = K →
  for_each (der_step K uvec M vs) (reverse (seq 0 (K + 1))) st
  = inl (out_of_range_access (-1)).
Proof.
  intros Hlen. rewrite Nat.add_1_r. cbn [seq]. rewrite reverse_cons, for_each_app.
  destruct (for_each_ok (der_step K uvec M vs) (reverse (seq 1 K))) with (s := st)
    as [st' ->].
  { intros s j Hj. apply der_step_ok; [done|].
    apply elem_of_reverse, elem_of_seq in Hj. lia. }
  simpl. by rewrite der_step_first_point.
Qed.

Lemma bspline_eval_with_der K (g0 : G) (vs : list Tangent) u vel acc d :
  length vs = K → (is_Some acc → is_Some vel) →
  bspline_eval K g0 vs u vel acc (Some d) = inl (out_of_range_access (-1)).
Proof.
  intros Hlen Hva.
  destruct (bspline_eval_split K g0 vs u vel acc (Some d) Hlen Hva)
    as (uvec & vel' & acc' & -> & _).
  by rewrite der_loop_fails.
Qed.

Lemma bspline_eval_outcome K (g0 : G) (vs : list Tangent) u vel acc der :
  length vs = K →
  bspline_eval K g0 vs u vel acc der = inl bad_optional_access
  ∨ bspline_eval K g0 vs u vel acc der = inl (out_of_range_access (-1))
  ∨ ∃ out, bspline_eval K g0 vs u vel acc der = inr out.
Proof.
  intros Hlen.
  destruct (decide (is_Some acc ∧ vel = None)) as [[[accv ->] ->]|Hva].
  { left. by apply bspline_eval_acc_without_vel. }
  assert (is_Some acc → is_Some vel) as Hva'.
  { intros Hacc. destruct vel; [by eexists|]. by destruct Hva. }
  destruct der as [d|].
  - right; left. by apply bspline_eval_with_der.
  - right; right.
    destruct (bspline_eval_no_der K g0 vs u vel acc Hlen Hva') as (vel' & acc' & -> & _).
    by eexists.
Qed.

(** *** The displacement loop of the control-point form *)

Lemma derived_displacements_length (ctrl : list G) :
  length (derived_displacements ctrl) = (length ctrl - 1)%nat.
Proof.
  unfold derived_displacements. rewrite length_zip_with.
  destruct ctrl as [|g ctrl]; [done|]. cbn [tail length]. lia.
Qed.

Lemma derived_displacements_lookup (ctrl : list G) i x1 x2 :
  ctrl !! i = Some x1 → ctrl !! S i = Some x2 →
  derived_displacements ctrl !! i = Some (log (inverse x1 ∘G x2)).
Proof.
  intros H1 H2. unfold derived_displacements.
  apply lookup_zip_with_Some. exists x1, x2. by rewrite lookup_tail.
Qed.

Lemma diff_pts_loop K (ctrl : list G) (z : Tangent) m :
  length ctrl = (K + 1)%nat → (m ≤ K)%nat →
  for_each (λ '(b1, b2, diff_pts) i,
      x1 ← deref ctrl b1;
      x2 ← deref ctrl b2;
      mret ((b1 + 1)%Z, (b2 + 1)%Z, <[i := log (inverse x1 ∘G x2)]> diff_pts))
    (seq 0 m) (0%Z, 1%Z, replicate K z)
  = inr (Z.of_nat m, Z.of_nat (S m),
         take m (derived_displacements ctrl) ++ replicate (K - m) z).
Proof.
  intros Hlen. induction m as [|m IH]; intros Hm.
  - simpl. by rewrite Nat.sub_0_r.
  - rewrite seq_snoc, for_each_app, IH by lia. simpl.
    destruct (lookup_lt_is_Some_2 ctrl m) as [x1 H1]; [lia|].
    destruct (lookup_lt_is_Some_2 ctrl (S m)) as [x2 H2]; [lia|].
    rewrite (deref_nat _ _ _ H1). simpl.
    replace (Z.pos (Pos.of_succ_nat m)) with (Z.of_nat (S m)) by lia.
    rewrite (deref_nat _ _ _ H2). simpl.
    rewrite (take_S_r _ _ _ (derived_displacements_lookup _ _ _ _ H1 H2)).
    replace (K - m)%nat with (S (K - S m)) by lia. simpl replicate.
    assert (length (take m (derived_displacements ctrl)) = m) as Hpre.
    { rewrite length_take, derived_displacements_length. lia. }
    rewrite (insert_app_length _ _ _ _ _ Hpre), <-app_assoc.
    unfold mret, Result_ret. do 3 f_equal; lia.
Qed.

Lemma bspline_eval_ctrl_delegates K (ctrl : list G) u vel acc der :
  length ctrl = (K + 1)%nat →
  ∃ g0, ctrl !! 0%nat = Some g0 ∧
    bspline_eval_ctrl K ctrl u vel acc der
    = bspline_eval K g0 (derived_displacements ctrl) u vel acc der.
Proof.
  intros Hlen. destruct (lookup_lt_is_Some_2 ctrl 0) as [g0 H0]; [lia|].
  exists g0. split; [done|]. unfold bspline_eval_ctrl. case_decide; [done|].
  rewrite (diff_pts_loop K ctrl _ K) by done. simpl.
  change 0%Z with (Z.of_nat 0). rewrite (deref_nat ctrl 0 _ H0). simpl.
  rewrite Nat.sub_diag, app_nil_r, take_ge; [done|].
  rewrite derived_displacements_length. lia.
Qed.

End EvaluatorFacts.

(** ** Consequences of the group laws *)

Section GroupFacts.
Context {G : Type} `{!LieGroup G} `{!LieGroupLaws G}.

Lemma inverse_Identity : inverse (Identity : G) = Identity.
Proof. by rewrite <-(compose_Identity_l (inverse Identity)), compose_inverse_r. Qed.

Lemma compose_inverse_cancel (a b : G) : a ∘G (inverse a ∘G b) = b.
Proof. by rewrite <-compose_assoc, compose_inverse_r, compose_Identity_l. Qed.

Lemma vscale_1 (v : Tangent) : vscale 1 v = v.
Proof.
  unfold vscale. rewrite <-(list_fmap_id v) at 2.
  apply list_fmap_ext. intros _ x _. apply Qcmult_1_l.
Qed.

Lemma vscale_0 (v : Tangent) : vscale 0 v = replicate (length v) 0.
Proof.
  unfold vscale. induction v as [|x v IH]; csimpl; [done|].
  rewrite IH. f_equal. ring.
Qed.

Lemma exp_vscale_0 (v : Tangent) : length v = Dof → exp (vscale 0 v) = (Identity : G).
Proof. intros Hv. by rewrite vscale_0, Hv, exp_zero. Qed.

End GroupFacts.

(** ** The coefficient matrices of degree 1 and 2 *)

Lemma cum_card_coeffmat_1 : detail.cum_card_coeffmat 1 = [[1; 0]; [0; 1]].
Proof. compute_done. Qed.

Lemma cum_card_coeffmat_2 :
  detail.cum_card_coeffmat 2 = [[1; 1 / 2; 0]; [0; 1; 0]; [0; - (1 / 2); 1 / 2]].
Proof. compute_done. Qed.

Lemma Btilde_linear u : Btilde 1 1 u = u.
Proof.
  unfold Btilde. rewrite cum_card_coeffmat_1.
  unfold powers, mcol, dot, vget. simpl. ring.
Qed.

Section LinearSegment.
Context {G : Type} `{!LieGroup G}.

(** A degree-1 window is the geodesic from its first to its second point. *)
Lemma bspline_eval_linear (g0 : G) (v : Tangent) u vel acc :
  (is_Some acc → is_Some vel) →
  ∃ vel' acc',
    bspline_eval 1 g0 [v] u vel acc None = inr (Outputs (g0 ∘G exp (vscale u v)) vel' acc' None)
    ∧ (is_Some vel' ↔ is_Some vel) ∧ (is_Some acc' ↔ is_Some acc).
Proof.
  intros Hva.
  destruct (bspline_eval_no_der 1 g0 [v] u vel acc eq_refl Hva) as (vel' & acc' & -> & Hv & Ha).
  exists vel', acc'. split; [|done].
  unfold cumulative_product. simpl. by rewrite Btilde_linear.
Qed.

Lemma bspline_eval_ctrl_linear (c0 c1 : G) u :
  bspline_eval_ctrl 1 [c0; c1] u None None None
  = inr (Outputs (c0 ∘G exp (vscale u (log (inverse c0 ∘G c1)))) None None None).
Proof.
  destruct (bspline_eval_ctrl_delegates 1 [c0; c1] u None None None eq_refl)
    as (g0 & [= <-] & ->).
  destruct (bspline_eval_linear c0 (log (inverse c0 ∘G c1)) u None None)
    as (vel' & acc' & Heq & Hv & Ha); [done|].
  unfold derived_displacements. simpl. rewrite Heq.
  by rewrite (is_Some_iff_None _ Hv), (is_Some_iff_None _ Ha).
Qed.

Lemma eval_run K (s : BSpline G) t vel acc istar u w out :
  eval_interval K s t = inr (istar, u) →
  window K s istar = inr w →
  bspline_eval_ctrl K w u vel acc None = inr out →
  eval K s t vel acc
  = inr (Outputs (out_ret out)
           ((λ v, vdiv v (dt_ s)) <$> out_vel out)
           ((λ a, vdiv a (dt_ s * dt_ s)) <$> out_acc out)
           (out_der out)).
Proof.
  intros Hi Hw Hout. unfold eval.
  rewrite Hi. simpl. rewrite Hw. simpl. by rewrite Hout.
Qed.

End LinearSegment.

(** ** The laws hold in R^3 *)

#[global] Instance R3_LieGroupLaws : LieGroupLaws R3.
Proof.
  split.
  - intros [] [] []. unfold compose. simpl. f_equal; ring.
  - intros []. unfold compose, Identity. simpl. f_equal; ring.
  - intros []. unfold compose, Identity. simpl. f_equal; ring.
  - intros []. unfold compose, Identity. simpl. f_equal; ring.
  - done.
  - by intros [].
Qed.

Lemma vdiv_1 (v : list Scalar) : vdiv v 1 = v.
Proof.
  unfold vdiv. rewrite <-(list_fmap_id v) at 2.
  apply list_fmap_ext. intros _ x _. simpl. field. compute_done.
Qed.

(** ** Integers among the scalars *)

Lemma Scalar_of_Z_le_iff (z : Z) (x : double) :
  Scalar_of_Z z ≤ x ↔ (z * Z.pos (Qden x) ≤ Qnum x)%Z.
Proof.
  destruct x as [[a b] Hc]. unfold Scalar_of_Z, Qcle. simpl.
  rewrite Qred_correct. unfold Qle. simpl. lia.
Qed.

Lemma Scalar_of_Z_ge_iff (z : Z) (x : double) :
  x ≤ Scalar_of_Z z ↔ (Qnum x ≤ z * Z.pos (Qden x))%Z.
Proof.
  destruct x as [[a b] Hc]. unfold Scalar_of_Z, Qcle. simpl.
  rewrite Qred_correct. unfold Qle. simpl. lia.
Qed.

Lemma Scalar_of_Z_gt_iff (z : Z) (x : double) :
  x < Scalar_of_Z z ↔ (Qnum x < z * Z.pos (Qden x))%Z.
Proof.
  destruct x as [[a b] Hc]. unfold Scalar_of_Z, Qclt. simpl.
  rewrite Qred_correct. unfold Qlt. simpl. lia.
Qed.

Lemma Scalar_of_Z_add (a b : Z) : Scalar_of_Z (a + b) = Scalar_of_Z a + Scalar_of_Z b.
Proof.
  unfold Scalar_of_Z. apply Qc_is_canon. simpl.
  rewrite !Qred_correct. unfold Qeq. simpl. lia.
Qed.

Lemma Scalar_of_Z_mono (a b : Z) : (a ≤ b)%Z → Scalar_of_Z a ≤ Scalar_of_Z b.
Proof.
  intros Hab. unfold Scalar_of_Z, Qcle. simpl.
  rewrite !Qred_correct. unfold Qle. simpl. lia.
Qed.

Lemma Scalar_of_Z_0 : Scalar_of_Z 0 = 0.
Proof. compute_done. Qed.

Lemma Scalar_of_Z_1 : Scalar_of_Z 1 = 1.
Proof. compute_done. Qed.

(** A non-negative quotient is rounded down. *)
Lemma static_cast_int64_floor (x : double) (hi : Z) :
  0 ≤ x → x < Scalar_of_Z hi → (hi ≤ 2 ^ 63)%Z →
  ∃ z, static_cast_int64 x = inr z ∧ (0 ≤ z < hi)%Z
       ∧ Scalar_of_Z z ≤ x ∧ x < Scalar_of_Z z + 1.
Proof.
  intros H0 Hhi Hfit.
  rewrite <-Scalar_of_Z_0 in H0. apply Scalar_of_Z_le_iff in H0.
  apply Scalar_of_Z_gt_iff in Hhi.
  exists (Qnum x ÷ Z.pos (Qden x))%Z.
  rewrite <-Scalar_of_Z_1, <-Scalar_of_Z_add, Scalar_of_Z_le_iff, Scalar_of_Z_gt_iff.
  unfold static_cast_int64.
  set (a := Qnum x) in *. set (b := Z.pos (Qden x)) in *.
  assert (0 < b)%Z as Hb by (unfold b; lia).
  rewrite Z.quot_div_nonneg by lia.
  assert (0 ≤ a / b)%Z by (apply Z.div_pos; lia).
  assert (a / b < hi)%Z by (apply Z.div_lt_upper_bound; lia).
  pose proof (Z.mul_div_le a b Hb). pose proof (Z.mul_succ_div_gt a b Hb).
  rewrite decide_True by lia. repeat split; lia.
Qed.

(** ** The interval index of [eval]

    [static_cast<int64_t>] rounds towards zero, so every quotient strictly
    between -1 and 1 lands in interval 0. *)

Lemma static_cast_int64_fraction (x : double) :
  - (1) < x → x < 1 → static_cast_int64 x = inr 0%Z.
Proof.
  intros Hlo Hhi. unfold static_cast_int64.
  assert ((Qnum x ÷ Z.pos (Qden x))%Z = 0%Z) as ->.
  { apply Z.quot_small_iff; [done|].
    unfold Qclt, Qlt in Hlo, Hhi. simpl in Hlo, Hhi. lia. }
  by rewrite decide_True.
Qed.

Section EvalInterval.
Context {G : Type} `{!LieGroup G}.

Lemma eval_interval_just_below_t_min K (s : BSpline G) t :
  0 < dt_ s → (K + 1 ≤ length (ctrl_pts_ s))%nat →
  t_min s - dt_ s < t → t < t_min s →
  eval_interval K s t = inr (0%Z, (t - t0_ s) / dt_ s) ∧ (t - t0_ s) / dt_ s < 0.
Proof.
  unfold t_min. intros Hdt Hsize Hlo Hhi.
  assert (dt_ s ≠ 0) as Hne by (intros Heq; rewrite Heq in Hdt; by apply Qclt_not_eq in Hdt).
  assert ((t - t0_ s) / dt_ s * dt_ s = t - t0_ s) as Hmul by (field; done).
  assert ((t - t0_ s) / dt_ s < 0) as Hneg.
  { apply (Qcmult_lt_mono_pos_r _ _ (dt_ s) Hdt). rewrite Hmul, Qcmult_0_l.
    apply (Qcplus_lt_mono_r _ _ (t0_ s)). by replace (t - t0_ s + t0_ s) with t by ring;
      rewrite Qcplus_0_l. }
  assert (- (1) < (t - t0_ s) / dt_ s) as Hgt.
  { apply (Qcmult_lt_mono_pos_r _ _ (dt_ s) Hdt). rewrite Hmul.
    apply (Qcplus_lt_mono_r _ _ (t0_ s)).
    replace (- (1) * dt_ s + t0_ s) with (t0_ s - dt_ s) by ring.
    by replace (t - t0_ s + t0_ s) with t by ring. }
  split; [|done]. unfold eval_interval.
  rewrite static_cast_int64_fraction; [|done|].
  2:{ eapply Qclt_trans; [exact Hneg|done]. }
  unfold mbind, Result_bind. rewrite decide_False by lia.
  rewrite decide_False.
  2:{ unfold size_t. pose proof (Z.mod_le (0 + Z.of_nat K + 1) (2 ^ 64)). lia. }
  unfold mret, Result_ret. do 2 f_equal. unfold Scalar_of_Z. simpl.
  replace (Q2Qc (inject_Z 0)) with (0 : Qc) by compute_done. field. done.
Qed.

Lemma static_cast_int64_between (lo hi : Z) (x : double) :
  (- 2 ^ 63 ≤ lo)%Z → (hi < 2 ^ 63)%Z →
  Scalar_of_Z lo ≤ x → x ≤ Scalar_of_Z hi →
  ∃ z, static_cast_int64 x = inr z ∧ (lo ≤ z ≤ hi)%Z.
Proof.
  intros Hlo Hhi Hge Hle. unfold static_cast_int64.
  unfold Scalar_of_Z, Qcle in Hge, Hle. simpl in Hge, Hle.
  rewrite Qred_correct in Hge, Hle. unfold Qle in Hge, Hle. simpl in Hge, Hle.
  destruct x as [[a b] Hcanon]. simpl in *.
  assert (lo ≤ a ÷ Z.pos b)%Z by (apply Z.quot_le_lower_bound; lia).
  assert (a ÷ Z.pos b ≤ hi)%Z by (apply Z.quot_le_upper_bound; lia).
  exists (a ÷ Z.pos b)%Z. split; [|done]. by rewrite decide_True by lia.
Qed.

Lemma eval_interval_below_clamps K (s : BSpline G) t :
  0 < dt_ s →
  Scalar_of_Z (- 2 ^ 63) ≤ (t - t0_ s) / dt_ s →
  t ≤ t_min s - dt_ s →
  eval_interval K s t = inr (0%Z, 0).
Proof.
  unfold t_min. intros Hdt Hrange Ht.
  assert (dt_ s ≠ 0) as Hne by (intros Heq; rewrite Heq in Hdt; by apply Qclt_not_eq in Hdt).
  assert ((t - t0_ s) / dt_ s * dt_ s = t - t0_ s) as Hmul by (field; done).
  assert ((t - t0_ s) / dt_ s ≤ Scalar_of_Z (-1)) as Hle.
  { apply (Qcmult_le_mono_pos_r _ _ (dt_ s) Hdt). rewrite Hmul.
    apply (Qcplus_le_mono_r _ _ (t0_ s)).
    replace (t - t0_ s + t0_ s) with t by ring.
    replace (Scalar_of_Z (-1) * dt_ s + t0_ s) with (t0_ s - dt_ s); [done|].
    replace (Scalar_of_Z (-1)) with (- (1) : Qc) by compute_done. ring. }
  destruct (static_cast_int64_between (- 2 ^ 63) (-1) _ (Z.le_refl _) eq_refl Hrange Hle)
    as (z & Hz & Hzlo & Hzhi).
  unfold eval_interval. rewrite Hz. unfold mbind, Result_bind.
  by rewrite decide_True by lia.
Qed.

Lemma eval_interval_above_clamps K (s : BSpline G) t :
  0 < dt_ s → (K + 1 ≤ length (ctrl_pts_ s))%nat →
  (Z.of_nat (length (ctrl_pts_ s)) < 2 ^ 63)%Z →
  (t - t0_ s) / dt_ s ≤ Scalar_of_Z (2 ^ 63 - 1) →
  t_max K s ≤ t →
  eval_interval K s t = inr ((Z.of_nat (length (ctrl_pts_ s)) - Z.of_nat K - 1)%Z, 1).
Proof.
  unfold t_max. intros Hdt Hsize Hfit Hrange Ht.
  assert (dt_ s ≠ 0) as Hne by (intros Heq; rewrite Heq in Hdt; by apply Qclt_not_eq in Hdt).
  assert ((t - t0_ s) / dt_ s * dt_ s = t - t0_ s) as Hmul by (field; done).
  set (n := (Z.of_nat (length (ctrl_pts_ s)) - Z.of_nat K)%Z) in *.
  assert (size_t n = n) as Hn by (unfold size_t; apply Z.mod_small; lia).
  rewrite Hn in Ht.
  assert (Scalar_of_Z n ≤ (t - t0_ s) / dt_ s) as Hge.
  { apply (Qcmult_le_mono_pos_r _ _ (dt_ s) Hdt). rewrite Hmul.
    apply (Qcplus_le_mono_r _ _ (t0_ s)).
    replace (t - t0_ s + t0_ s) with t by ring.
    by rewrite Qcplus_comm. }
  destruct (static_cast_int64_between n (2 ^ 63 - 1) _ ltac:(lia) ltac:(lia) Hge Hrange)
    as (z & Hz & Hzlo & Hzhi).
  unfold eval_interval. rewrite Hz. unfold mbind, Result_bind.
  rewrite decide_False by lia.
  rewrite decide_True.
  2:{ unfold size_t. rewrite Z.mod_small; lia. }
  unfold mret, Result_ret. do 2 f_equal.
  unfold size_t, int64_t. rewrite Z.mod_small by lia.
  rewrite decide_True; lia.
Qed.

(** Doubling [dt] and the distance from [t0] keeps the interval and [u]. *)
Lemma eval_interval_dt_2 K t0 (ctrl : list G) t1 :
  eval_interval K (MkBSpline t0 2 ctrl) (t0 + 2 * (t1 - t0))
  = eval_interval K (MkBSpline t0 1 ctrl) t1.
Proof.
  assert ((2 : Qc) ≠ 0) as H2 by compute_done.
  assert ((1 : Qc) ≠ 0) as H1 by compute_done.
  unfold eval_interval. simpl.
  replace ((t0 + 2 * (t1 - t0) - t0) / 2) with ((t1 - t0) / 1) by (by field).
  destruct (static_cast_int64 _) as [e|istar]; simpl; [done|].
  repeat case_decide; try done.
  unfold mret, Result_ret. do 2 f_equal. by field.
Qed.

(** The index [eval] settles on always names a window inside the control
    points, whatever the query time. *)
Lemma eval_interval_in_range K (s : BSpline G) t :
  Scalar_of_Z (- 2 ^ 63) ≤ (t - t0_ s) / dt_ s →
  (t - t0_ s) / dt_ s ≤ Scalar_of_Z (2 ^ 63 - 1) →
  (K + 1 ≤ length (ctrl_pts_ s))%nat →
  (Z.of_nat (length (ctrl_pts_ s)) < 2 ^ 63)%Z →
  ∃ istar u, eval_interval K s t = inr (istar, u)
             ∧ (0 ≤ istar ≤ Z.of_nat (length (ctrl_pts_ s)) - Z.of_nat K - 1)%Z.
Proof.
  intros Hlo Hhi Hsize Hfit.
  destruct (static_cast_int64_between (- 2 ^ 63) (2 ^ 63 - 1) _ ltac:(lia) ltac:(lia) Hlo Hhi)
    as (z & Hz & Hzlo & Hzhi).
  unfold eval_interval. rewrite Hz. unfold mbind, Result_bind.
  destruct (decide (z < 0)%Z).
  { eexists _, _. split; [done|]. lia. }
  assert (size_t (z + Z.of_nat K + 1) = z + Z.of_nat K + 1)%Z as ->
    by (unfold size_t; apply Z.mod_small; lia).
  case_decide.
  - eexists _, _. split; [done|].
    unfold size_t, int64_t. rewrite Z.mod_small by lia.
    rewrite decide_True by lia. lia.
  - eexists _, _. split; [done|]. lia.
Qed.

Lemma window_in_range K (s : BSpline G) istar :
  (0 ≤ istar ≤ Z.of_nat (length (ctrl_pts_ s)) - Z.of_nat K - 1)%Z →
  ∃ w, window K s istar = inr w ∧ length w = (K + 1)%nat.
Proof.
  intros Hi. unfold window. rewrite decide_True by lia.
  eexists. split; [done|]. rewrite length_take, length_drop. lia.
Qed.

(** An in-domain query has a quotient between [0] and the number of
    intervals. *)
Lemma in_domain_quotient K (s : BSpline G) t :
  0 < dt_ s → (K ≤ length (ctrl_pts_ s))%nat →
  (Z.of_nat (length (ctrl_pts_ s)) < 2 ^ 64)%Z →
  t_min s ≤ t → t < t_max K s →
  0 ≤ (t - t0_ s) / dt_ s
  ∧ (t - t0_ s) / dt_ s < Scalar_of_Z (Z.of_nat (length (ctrl_pts_ s)) - Z.of_nat K).
Proof.
  unfold t_min. intros Hdt Hsize Hfit Hlo Hhi.
  assert (dt_ s ≠ 0) as Hne by (intros Heq; rewrite Heq in Hdt; by apply Qclt_not_eq in Hdt).
  assert ((t - t0_ s) / dt_ s * dt_ s = t - t0_ s) as Hmul by (field; done).
  split.
  - apply (Qcmult_le_mono_pos_r _ _ (dt_ s) Hdt). rewrite Hmul, Qcmult_0_l.
    apply (Qcplus_le_mono_r _ _ (t0_ s)).
    replace (t - t0_ s + t0_ s) with t by ring. by rewrite Qcplus_0_l.
  - apply (Qcmult_lt_mono_pos_r _ _ (dt_ s) Hdt). rewrite Hmul.
    apply (Qcplus_lt_mono_r _ _ (t0_ s)).
    replace (t - t0_ s + t0_ s) with t by ring.
    unfold t_max, size_t in Hhi. rewrite Z.mod_small in Hhi by lia.
    by rewrite Qcplus_comm.
Qed.

End EvalInterval.

(** * The claims *)

(** ** C1: the displacement form is the left-to-right product *)

Section C1.
Context {G : Type} `{!LieGroup G}.


End C1.


(** ** C2: the Jacobian loop reads before the first displacement *)

Section C2.
Context {G : Type} `{!LieGroup G}.

(** C2 (what the code does; the claim fails).  Whenever the Jacobian output
    [der] is requested on a window of the required size [K], the last round
    of the loop ([j = 0]) reads [*(begin(diff_points) + 0 - 1)], the element
    before the first one: an access outside [0..K-1]. *)
Theorem bspline_eval_der_reads_before_begin K (g0 : G) (vs : list Tangent) u vel acc d :
  length vs = K → (is_Some acc → is_Some vel) →
  bspline_eval K g0 vs u vel acc (Some d) = inl (out_of_range_access (-1)).
Proof. apply bspline_eval_with_der. Qed.

End C2.

Lemma bspline_eval_der_reads_before_begin_witness :
  bspline_eval 1 (MkR3 0 0 0) [[1; 0; 0]] (1 / 2) None None (Some (zeros 3 6))
  = inl (out_of_range_access (-1)).
Proof.
  apply (bspline_eval_der_reads_before_begin 1 (MkR3 0 0 0) [[1; 0; 0]]).
  - reflexivity.
  - intros [? [=]].
Defined.

(** ** C3: queries just below [t_min] are not clamped *)

(** C3 (what the code does; the claim fails).  The interval index drops the
    fraction of [(t - t0)/dt] instead of rounding it down, so a query less
    than one interval below [t_min] is not clamped (lemma
    [eval_interval_just_below_t_min]).  On the linear spline through
    [(0,0,0)] and [(1,0,0)] with [t0 = 0], [dt = 1], [eval(-1/2)] evaluates
    the first window at [u = -1/2] and returns [(-1/2,0,0)], not the value
    [(0,0,0)] the window has at [u = 0]. *)
Theorem eval_below_t_min_not_clamped :
  - (1 / 2) < t_min (MkBSpline 0 1 [MkR3 0 0 0; MkR3 1 0 0])
  ∧ eval_interval 1 (MkBSpline 0 1 [MkR3 0 0 0; MkR3 1 0 0]) (- (1 / 2))
    = inr (0%Z, - (1 / 2))
  ∧ eval 1 (MkBSpline 0 1 [MkR3 0 0 0; MkR3 1 0 0]) (- (1 / 2)) None None
    = inr (Outputs (MkR3 (- (1 / 2)) 0 0) None None None)
  ∧ bspline_eval_ctrl 1 [MkR3 0 0 0; MkR3 1 0 0] 0 None None None
    = inr (Outputs (MkR3 0 0 0) None None None).
Proof. repeat split; compute_done. Qed.

(** ** C4: the two entry points agree *)

Section C4.
Context {G : Type} `{!LieGroup G}.

(** C4.  On exactly [K + 1] control points the control-point form returns
    what the displacement form returns on [g0 = ctrl[0]] and the displacements
    [v_i = log(ctrl[i-1]⁻¹ · ctrl[i])], for every choice of optional outputs. *)
Theorem bspline_eval_ctrl_refines K (ctrl : list G) u vel acc der :
  length ctrl = (K + 1)%nat →
  ∃ g0, head ctrl = Some g0 ∧
    bspline_eval_ctrl K ctrl u vel acc der
    = bspline_eval K g0 (derived_displacements ctrl) u vel acc der.
Proof.
  intros Hlen.
  destruct (bspline_eval_ctrl_delegates K ctrl u vel acc der Hlen) as (g0 & H0 & Heq).
  exists g0. by rewrite head_lookup.
Qed.

End C4.

Lemma bspline_eval_ctrl_refines_witness :
  ∃ g0, head [MkR3 0 0 0; MkR3 1 0 0; MkR3 1 1 0] = Some g0 ∧
    bspline_eval_ctrl 2 [MkR3 0 0 0; MkR3 1 0 0; MkR3 1 1 0] (1 / 2) None None None
    = bspline_eval 2 g0 (derived_displacements [MkR3 0 0 0; MkR3 1 0 0; MkR3 1 1 0])
        (1 / 2) None None None.
Proof.
  apply (bspline_eval_ctrl_refines 2 [MkR3 0 0 0; MkR3 1 0 0; MkR3 1 1 0]). reflexivity.
Defined.

(** ** C5: the end points are reproduced by degree 1 only *)

(** C5 (as stated, refuted).  In R^3 with degree [K = 2] the displacement
    form at [u = 0] does not return [g0], and the control-point form at
    [u = 1] does not return [ctrl_points[2]]: [B̃_1(0) = 1/2] and
    [B̃_2(1) = 1/2]. *)
Lemma bspline_eval_quadratic_endpoints :
  (∃ out, bspline_eval 2 (MkR3 0 0 0) [[1; 0; 0]; [0; 0; 0]] 0 None None None = inr out
          ∧ out_ret out = MkR3 (1 / 2) 0 0 ∧ out_ret out ≠ MkR3 0 0 0)
  ∧ (∃ out, bspline_eval_ctrl 2 [MkR3 0 0 0; MkR3 0 0 0; MkR3 1 0 0] 1 None None None = inr out
            ∧ out_ret out = MkR3 (1 / 2) 0 0 ∧ out_ret out ≠ MkR3 1 0 0)
  ∧ Btilde 2 1 0 = 1 / 2 ∧ Btilde 2 2 1 = 1 / 2.
Proof.
  split; [|split].
  - exists (Outputs (MkR3 (1 / 2) 0 0) None None None). repeat split; compute_done.
  - exists (Outputs (MkR3 (1 / 2) 0 0) None None None). repeat split; compute_done.
  - split; compute_done.
Qed.

Section C5.
Context {G : Type} `{!LieGroup G} `{!LieGroupLaws G}.

(** C5 (amended).  For degree [K = 1]: at [u = 0] the displacement form
    returns exactly [g0], and at [u = 1] the control-point form returns
    exactly the last control point [ctrl_points[1]]. *)
Theorem bspline_eval_linear_endpoints (g0 : G) (v : Tangent) (c0 c1 : G) :
  length v = Dof →
  bspline_eval 1 g0 [v] 0 None None None = inr (Outputs g0 None None None)
  ∧ bspline_eval_ctrl 1 [c0; c1] 1 None None None = inr (Outputs c1 None None None).
Proof.
  intros Hv. split.
  - destruct (bspline_eval_linear g0 v 0 None None) as (vel' & acc' & -> & Hvel & Hacc);
      [done|].
    rewrite (is_Some_iff_None _ Hvel), (is_Some_iff_None _ Hacc).
    by rewrite (exp_vscale_0 v Hv), compose_Identity_r.
  - rewrite bspline_eval_ctrl_linear.
    by rewrite vscale_1, exp_log, compose_inverse_cancel.
Qed.

End C5.

Lemma bspline_eval_linear_endpoints_witness :
  bspline_eval 1 (MkR3 1 1 0) [[0; 1; 1]] 0 None None None
  = inr (Outputs (MkR3 1 1 0) None None None)
  ∧ bspline_eval_ctrl 1 [MkR3 1 1 0; MkR3 0 1 1] 1 None None None
    = inr (Outputs (MkR3 0 1 1) None None None).
Proof.
  apply (bspline_eval_linear_endpoints (MkR3 1 1 0) [0; 1; 1] (MkR3 1 1 0) (MkR3 0 1 1)).
  reflexivity.
Defined.

(** ** C6: the cumulative transform is a right-to-left running sum *)

(** C6.  For every degree [K] the cumulative coefficient matrix is the
    cardinal one with every row replaced by its right-to-left running sum,
    which is what the loop [ret[i][K-1-j] += ret[i][K-j]], [j = 0..K-1],
    computes in place on every row [i]: entry [(i, c)] is the sum of the
    cardinal entries [(i, c), ..., (i, K)].  For [K = 0] both matrices are
    [[1]]. *)
Theorem cum_card_coeffmat_running_sum K :
  detail.cum_card_coeffmat K = running_sum_rtl <$> detail.card_coeffmat K
  ∧ (∀ i c, mget (detail.cum_card_coeffmat K) i c
            = foldr Qcplus 0 (drop c (mrow (detail.card_coeffmat K) i)))
  ∧ detail.card_coeffmat 0 = [[1]]
  ∧ detail.cum_card_coeffmat 0 = [[1]].
Proof.
  split; [apply cum_card_coeffmat_rows|]. split; [|done].
  intros i c. rewrite cum_card_coeffmat_rows. unfold mget, mrow.
  rewrite list_lookup_fmap.
  destruct (detail.card_coeffmat K !! i) as [row|]; simpl.
  - apply running_sum_rtl_lookup.
  - by rewrite drop_nil.
Qed.

(** ** C7: size violations *)

Section C7.
Context {G : Type} `{!LieGroup G}.

(** C7.  A window whose size differs from the required count ([K]
    displacements, [K + 1] control points) raises the size-violation error
    whose message carries the expected and the actual count; a window of the
    required size never raises a [runtime_error]. *)
Theorem bspline_eval_size_violation K (g0 : G) (vs : list Tangent) (ctrl : list G)
    u vel acc der :
  (length vs ≠ K →
     bspline_eval K g0 vs u vel acc der
     = inl (runtime_error ("bspline: diff_points range must be size K=" +:+ to_string K
                           +:+ ", got " +:+ to_string (length vs))))
  ∧ (length vs = K → ∀ what, bspline_eval K g0 vs u vel acc der ≠ inl (runtime_error what))
  ∧ (length ctrl ≠ (K + 1)%nat →
     bspline_eval_ctrl K ctrl u vel acc der
     = inl (runtime_error ("bspline: ctrl_points range must be size K+1=" +:+ to_string (K + 1)
                           +:+ ", got " +:+ to_string (length ctrl))))
  ∧ (length ctrl = (K + 1)%nat →
     ∀ what, bspline_eval_ctrl K ctrl u vel acc der ≠ inl (runtime_error what)).
Proof.
  assert (∀ g0' vs', length vs' = K →
            ∀ what, bspline_eval K g0' vs' u vel acc der ≠ inl (runtime_error what)) as Hok.
  { intros g0' vs' Hlen what.
    destruct (bspline_eval_outcome K g0' vs' u vel acc der Hlen) as [->|[->|[out ->]]]; done. }
  split; [|split; [|split]].
  - intros Hlen. unfold bspline_eval. by rewrite decide_True.
  - apply Hok.
  - intros Hlen. unfold bspline_eval_ctrl. by rewrite decide_True.
  - intros Hlen what.
    destruct (bspline_eval_ctrl_delegates K ctrl u vel acc der Hlen) as (g0' & _ & ->).
    apply Hok. rewrite derived_displacements_length. lia.
Qed.

End C7.

(** Degree 2 with one displacement ([K - 1]) and with four control points
    ([K + 2]): the messages in full. *)
Lemma bspline_eval_size_violation_witness :
  bspline_eval 2 (MkR3 0 0 0) [[1; 0; 0]] 0 None None None
  = inl (runtime_error "bspline: diff_points range must be size K=2, got 1")
  ∧ bspline_eval_ctrl 2 [MkR3 0 0 0; MkR3 1 0 0; MkR3 1 1 0; MkR3 1 1 1] 0 None None None
    = inl (runtime_error "bspline: ctrl_points range must be size K+1=3, got 4").
Proof.
  pose proof (bspline_eval_size_violation 2 (MkR3 0 0 0) [[1; 0; 0]]
                [MkR3 0 0 0; MkR3 1 0 0; MkR3 1 1 0; MkR3 1 1 1] 0 None None None)
    as (Hdiff & _ & Hctrl & _).
  split.
  - rewrite Hdiff; [reflexivity|]. simpl. lia.
  - rewrite Hctrl; [reflexivity|]. simpl. lia.
Defined.

(** ** C8: the linear boundary scenario *)

Section C8.
Context {G : Type} `{!LieGroup G} `{!LieGroupLaws G}.

(** C8.  Degree 1 on a 3-DoF group, control points
    [[Identity(), exp([1,0,0])]], [t0 = 0], [dt = 1]: [eval(0.5)] returns
    [exp(0.5·[1,0,0])], [eval(-10)] returns [Identity()] and [eval(10)]
    returns [exp([1,0,0])].  The group is any one that obeys the contract and
    whose logarithm inverts the exponential at [[1,0,0]]. *)
Theorem eval_linear_scenario :
  Dof = 3%nat → log (exp [1; 0; 0] : G) = [1; 0; 0] →
  eval 1 (MkBSpline 0 1 [Identity; exp [1; 0; 0]]) (1 / 2) None None
  = inr (Outputs (exp (vscale (1 / 2) [1; 0; 0])) None None None)
  ∧ eval 1 (MkBSpline 0 1 [Identity; exp [1; 0; 0]]) (Q2Qc (-10)) None None
    = inr (Outputs Identity None None None)
  ∧ eval 1 (MkBSpline 0 1 [Identity; exp [1; 0; 0]]) (Q2Qc 10) None None
    = inr (Outputs (exp [1; 0; 0]) None None None).
Proof.
  intros HDof Hlog.
  assert (eval_interval 1 (MkBSpline 0 1 [Identity; exp [1; 0; 0]]) (1 / 2)
          = inr (0%Z, 1 / 2)) as Hmid by compute_done.
  assert (eval_interval 1 (MkBSpline 0 1 [Identity; exp [1; 0; 0]]) (Q2Qc (-10))
          = inr (0%Z, 0)) as Hlow by compute_done.
  assert (eval_interval 1 (MkBSpline 0 1 [Identity; exp [1; 0; 0]]) (Q2Qc 10)
          = inr (0%Z, 1)) as Hhigh by compute_done.
  rewrite (eval_run _ _ _ _ _ _ _ _ _ Hmid eq_refl (bspline_eval_ctrl_linear _ _ _)).
  rewrite (eval_run _ _ _ _ _ _ _ _ _ Hlow eq_refl (bspline_eval_ctrl_linear _ _ _)).
  rewrite (eval_run _ _ _ _ _ _ _ _ _ Hhigh eq_refl (bspline_eval_ctrl_linear _ _ _)).
  simpl.
  rewrite inverse_Identity, !compose_Identity_l, Hlog, vscale_1.
  rewrite (exp_vscale_0 [1; 0; 0]) by (by rewrite HDof).
  done.
Qed.

End C8.

Lemma eval_linear_scenario_witness :
  eval 1 (MkBSpline 0 1 [(Identity : R3); exp [1; 0; 0]]) (1 / 2) None None
  = inr (Outputs (exp (vscale (1 / 2) [1; 0; 0])) None None None)
  ∧ eval 1 (MkBSpline 0 1 [(Identity : R3); exp [1; 0; 0]]) (Q2Qc (-10)) None None
    = inr (Outputs Identity None None None)
  ∧ eval 1 (MkBSpline 0 1 [(Identity : R3); exp [1; 0; 0]]) (Q2Qc 10) None None
    = inr (Outputs (exp [1; 0; 0]) None None None).
Proof.
  apply (eval_linear_scenario (G := R3)).
  - reflexivity.
  - reflexivity.
Defined.

(** ** C9: derivatives are rescaled by [dt] *)

Section C9.
Context {G : Type} `{!LieGroup G}.

(** C9.  The velocity [eval] writes is the evaluator's derivative with
    respect to [u] divided by [dt], entry by entry, and the acceleration the
    evaluator's second derivative divided by [dt²]: this holds whenever the
    evaluator returns on the window [eval] selects, and every in-domain query
    of a spline with [dt > 0] and at least [K + 1] control points is such a
    case.  So a spline with [dt = 2] returns, at the same interval and the
    same [u], half the velocity and a quarter of the acceleration of the
    spline with [dt = 1]; the query times [t0 + 2 (t1 - t0)] and [t1] always
    match in this way. *)
Theorem eval_rescales_derivatives :
  (∀ K (s : BSpline G) t vel acc istar u w out,
     eval_interval K s t = inr (istar, u) →
     window K s istar = inr w →
     bspline_eval_ctrl K w u vel acc None = inr out →
     ∃ o, eval K s t vel acc = inr o
          ∧ out_ret o = out_ret out
          ∧ out_vel o = (λ v : Tangent, (λ x, x / dt_ s) <$> v) <$> out_vel out
          ∧ out_acc o = (λ a : Tangent, (λ x, x / (dt_ s * dt_ s)) <$> a) <$> out_acc out
          ∧ out_der o = None)
  ∧ (∀ K (s : BSpline G) t vel acc,
       0 < dt_ s → (K + 1 ≤ length (ctrl_pts_ s))%nat →
       (Z.of_nat (length (ctrl_pts_ s)) < 2 ^ 63)%Z →
       t_min s ≤ t → t < t_max K s → (is_Some acc → is_Some vel) →
       ∃ istar u w out o,
         eval_interval K s t = inr (istar, u)
         ∧ window K s istar = inr w
         ∧ bspline_eval_ctrl K w u vel acc None = inr out
         ∧ (is_Some (out_vel out) ↔ is_Some vel)
         ∧ (is_Some (out_acc out) ↔ is_Some acc)
         ∧ eval K s t vel acc = inr o
         ∧ out_ret o = out_ret out
         ∧ out_vel o = (λ v : Tangent, (λ x, x / dt_ s) <$> v) <$> out_vel out
         ∧ out_acc o = (λ a : Tangent, (λ x, x / (dt_ s * dt_ s)) <$> a) <$> out_acc out)
  ∧ (∀ K t0 (ctrl : list G) t1 t2 vel acc o1,
       eval_interval K (MkBSpline t0 2 ctrl) t2 = eval_interval K (MkBSpline t0 1 ctrl) t1 →
       eval K (MkBSpline t0 1 ctrl) t1 vel acc = inr o1 →
       ∃ o2, eval K (MkBSpline t0 2 ctrl) t2 vel acc = inr o2
             ∧ out_ret o2 = out_ret o1
             ∧ out_vel o2 = (λ v : Tangent, (λ x, x / 2) <$> v) <$> out_vel o1
             ∧ out_acc o2 = (λ a : Tangent, (λ x, x / Q2Qc 4) <$> a) <$> out_acc o1)
  ∧ (∀ K t0 (ctrl : list G) t1,
       eval_interval K (MkBSpline t0 2 ctrl) (t0 + 2 * (t1 - t0))
       = eval_interval K (MkBSpline t0 1 ctrl) t1).
Proof.
  assert (∀ K (s : BSpline G) t vel acc istar u w out,
            eval_interval K s t = inr (istar, u) →
            window K s istar = inr w →
            bspline_eval_ctrl K w u vel acc None = inr out →
            ∃ o, eval K s t vel acc = inr o
                 ∧ out_ret o = out_ret out
                 ∧ out_vel o = (λ v : Tangent, (λ x, x / dt_ s) <$> v) <$> out_vel out
                 ∧ out_acc o
                   = (λ a : Tangent, (λ x, x / (dt_ s * dt_ s)) <$> a) <$> out_acc out
                 ∧ out_der o = None) as Hrun.
  { intros K s t vel acc istar u w out Hi Hw Hout.
    eexists. split; [by apply (eval_run K s t vel acc istar u w out)|].
    repeat split.
    destruct (decide (length w = (K + 1)%nat)) as [Hlen|Hlen].
    - destruct (bspline_eval_ctrl_delegates K w u vel acc None Hlen) as (g0 & _ & Hd).
      rewrite Hd in Hout.
      assert (length (derived_displacements w) = K) as HK
        by (rewrite derived_displacements_length; lia).
      destruct (decide (is_Some acc ∧ vel = None)) as [[[accv ->] ->]|Hva].
      { by rewrite bspline_eval_acc_without_vel in Hout. }
      destruct (bspline_eval_no_der K g0 (derived_displacements w) u vel acc HK)
        as (vel' & acc' & Ho & _).
      { intros Hacc. destruct vel; [by eexists|]. by destruct Hva. }
      rewrite Ho in Hout. by injection Hout as <-.
    - unfold bspline_eval_ctrl in Hout. by rewrite decide_True in Hout. }
  split; [exact Hrun|]. split; [|split; [|apply eval_interval_dt_2]].
  - intros K s t vel acc Hdt Hsize Hfit Hlo Hhi Hva.
    destruct (in_domain_quotient K s t Hdt ltac:(lia) ltac:(lia) Hlo Hhi) as [Hx0 Hxn].
    destruct (eval_interval_in_range K s t) as (istar & u & Hi & Hr); [| |done|done|].
    { eapply Qcle_trans; [|exact Hx0]. compute_done. }
    { eapply Qcle_trans; [apply Qclt_le_weak, Hxn|]. apply Scalar_of_Z_mono. lia. }
    destruct (window_in_range K s istar Hr) as (w & Hw & Hlen).
    destruct (bspline_eval_ctrl_delegates K w u vel acc None Hlen) as (g0 & _ & Hd).
    destruct (bspline_eval_no_der K g0 (derived_displacements w) u vel acc)
      as (vel' & acc' & Hout & Hv & Ha); [|done|].
    { rewrite derived_displacements_length. lia. }
    rewrite <-Hd in Hout.
    destruct (Hrun K s t vel acc istar u w _ Hi Hw Hout) as (o & Ho & Hret & Hvel & Hacc & _).
    exists istar, u, w, (Outputs (cumulative_product K g0 (derived_displacements w) u)
                           vel' acc' None), o.
    repeat split; try done; simpl; by (apply Hv || apply Ha).
  - intros K t0 ctrl t1 t2 vel acc o1 Hi. unfold eval. rewrite Hi.
    destruct (eval_interval K _ t1) as [e|[istar u]]; simpl; [done|].
    unfold window. simpl. case_decide; simpl; [|done].
    destruct (bspline_eval_ctrl K _ u vel acc None) as [e|out]; simpl; [done|].
    intros [= <-]. eexists. split; [done|]. simpl. split; [done|].
    assert ((2 : Qc) * 2 = Q2Qc 4) as -> by compute_done.
    assert ((1 : Qc) * 1 = 1) as -> by compute_done.
    change (λ v : list Qc, (λ x, x / 2) <$> v) with (λ v : list Qc, vdiv v 2).
    change (λ a : list Qc, (λ x, x / Q2Qc 4) <$> a) with (λ a : list Qc, vdiv a (Q2Qc 4)).
    split; rewrite <-option_fmap_compose; apply option_fmap_ext;
      intros x; simpl; by rewrite vdiv_1.
Qed.

End C9.

(** A quadratic spline in R^3 at [u = 1/2] of its first interval: [t = 1/2]
    for [dt = 1], where the velocity is [[2; 0; 0]] and the acceleration
    [[2; 0; 0]], and [t = 1] for [dt = 2], where they are [[1; 0; 0]] and
    [[1/2; 0; 0]]. *)
Lemma eval_rescales_derivatives_witness :
  eval 2 (MkBSpline 0 1 [MkR3 0 0 0; MkR3 1 0 0; MkR3 (Q2Qc 4) 0 0; MkR3 (Q2Qc 3) 0 0]) (1 / 2)
    (Some [0; 0; 0]) (Some [0; 0; 0])
  = inr (Outputs (MkR3 (Q2Qc (5 # 4)) 0 0) (Some [2; 0; 0]) (Some [2; 0; 0]) None)
  ∧ ∃ o2,
      eval 2 (MkBSpline 0 2 [MkR3 0 0 0; MkR3 1 0 0; MkR3 (Q2Qc 4) 0 0; MkR3 (Q2Qc 3) 0 0]) 1
        (Some [0; 0; 0]) (Some [0; 0; 0]) = inr o2
      ∧ out_ret o2 = MkR3 (Q2Qc (5 # 4)) 0 0
      ∧ out_vel o2 = Some [1; 0; 0]
      ∧ out_acc o2 = Some [1 / 2; 0; 0].
Proof.
  assert (eval 2 (MkBSpline 0 1 [MkR3 0 0 0; MkR3 1 0 0; MkR3 (Q2Qc 4) 0 0; MkR3 (Q2Qc 3) 0 0])
            (1 / 2) (Some [0; 0; 0]) (Some [0; 0; 0])
          = inr (Outputs (MkR3 (Q2Qc (5 # 4)) 0 0) (Some [2; 0; 0]) (Some [2; 0; 0]) None))
    as H1 by compute_done.
  split; [exact H1|].
  destruct (proj1 (proj2 (proj2 (eval_rescales_derivatives (G := R3)))) 2%nat 0
              [MkR3 0 0 0; MkR3 1 0 0; MkR3 (Q2Qc 4) 0 0; MkR3 (Q2Qc 3) 0 0] (1 / 2) 1
              (Some [0; 0; 0]) (Some [0; 0; 0])
              (Outputs (MkR3 (Q2Qc (5 # 4)) 0 0) (Some [2; 0; 0]) (Some [2; 0; 0]) None))
    as (o2 & Ho2 & Hret & Hvel & Hacc).
  - compute_done.
  - exact H1.
  - exists o2. rewrite Hvel, Hacc. repeat split; [exact Ho2|exact Hret|compute_done|compute_done].
Defined.

(** ** C10: construction validates nothing *)

Section C10.
Context {G : Type} `{!LieGroup G}.

(** C10.  Both parameterised constructors store [t0], [dt] and the control
    points as given: for every [t0], every [dt] (also [dt ≤ 0]) and every
    sequence of control points (also shorter than [K + 1]), construction
    returns the spline and raises nothing. *)
Theorem BSpline_constructors_store (t0 dt : double) (ctrl_pts : list G) :
  BSpline_of_vector t0 dt ctrl_pts = inr (MkBSpline t0 dt ctrl_pts)
  ∧ BSpline_of_range t0 dt ctrl_pts = inr (MkBSpline t0 dt ctrl_pts)
  ∧ t0_ (MkBSpline t0 dt ctrl_pts) = t0
  ∧ dt_ (MkBSpline t0 dt ctrl_pts) = dt
  ∧ ctrl_pts_ (MkBSpline t0 dt ctrl_pts) = ctrl_pts.
Proof. done. Qed.

End C10.

(** * Further properties *)

(** ** The spline object: domain, clamping, failures *)

Section SplineFacts.
Context {G : Type} `{!LieGroup G}.

Lemma eval_interval_ext K (s : BSpline G) t t' vel acc :
  eval_interval K s t = eval_interval K s t' → eval K s t vel acc = eval K s t' vel acc.
Proof. intros Heq. unfold eval. by rewrite Heq. Qed.

Lemma quotient_spec (s : BSpline G) t :
  dt_ s ≠ 0 → (t - t0_ s) / dt_ s * dt_ s = t - t0_ s.
Proof. intros Hne. by field. Qed.

Lemma dt_pos_ne (s : BSpline G) : 0 < dt_ s → dt_ s ≠ 0.
Proof. intros Hdt Heq. rewrite Heq in Hdt. by apply Qclt_not_eq in Hdt. Qed.

Lemma t_max_quotient K (s : BSpline G) :
  0 < dt_ s → (K ≤ length (ctrl_pts_ s))%nat →
  (Z.of_nat (length (ctrl_pts_ s)) < 2 ^ 64)%Z →
  (t_max K s - t0_ s) / dt_ s
  = Scalar_of_Z (Z.of_nat (length (ctrl_pts_ s)) - Z.of_nat K).
Proof.
  intros Hdt HK Hfit. unfold t_max, size_t.
  rewrite Z.mod_small by lia. field. by apply dt_pos_ne.
Qed.

(** X1.  In-domain queries: for [t_min ≤ t < t_max] the interval index is
    the quotient [(t - t0)/dt] rounded down, the window lies inside the
    control points, [u] lies in [[0, 1)], and [t = t0 + (istar + u) dt]. *)
Theorem eval_interval_in_domain K (s : BSpline G) t :
  0 < dt_ s → (K + 1 ≤ length (ctrl_pts_ s))%nat →
  (Z.of_nat (length (ctrl_pts_ s)) < 2 ^ 63)%Z →
  t_min s ≤ t → t < t_max K s →
  ∃ istar u,
    eval_interval K s t = inr (istar, u)
    ∧ (0 ≤ istar ≤ Z.of_nat (length (ctrl_pts_ s)) - Z.of_nat K - 1)%Z
    ∧ Scalar_of_Z istar ≤ (t - t0_ s) / dt_ s ∧ (t - t0_ s) / dt_ s < Scalar_of_Z istar + 1
    ∧ 0 ≤ u ∧ u < 1
    ∧ t = t0_ s + (Scalar_of_Z istar + u) * dt_ s.
Proof.
  unfold t_min. intros Hdt Hsize Hfit Hlo Hhi.
  pose proof (dt_pos_ne s Hdt) as Hne.
  pose proof (quotient_spec s t Hne) as Hmul.
  set (x := (t - t0_ s) / dt_ s) in *.
  set (n := (Z.of_nat (length (ctrl_pts_ s)) - Z.of_nat K)%Z).
  assert (0 ≤ x) as Hx0.
  { apply (Qcmult_le_mono_pos_r _ _ (dt_ s) Hdt). rewrite Hmul, Qcmult_0_l.
    apply (Qcplus_le_mono_r _ _ (t0_ s)).
    replace (t - t0_ s + t0_ s) with t by ring. by rewrite Qcplus_0_l. }
  assert (x < Scalar_of_Z n) as Hxn.
  { apply (Qcmult_lt_mono_pos_r _ _ (dt_ s) Hdt). rewrite Hmul.
    apply (Qcplus_lt_mono_r _ _ (t0_ s)).
    replace (t - t0_ s + t0_ s) with t by ring.
    unfold t_max, size_t in Hhi. rewrite Z.mod_small in Hhi by lia.
    by rewrite Qcplus_comm. }
  destruct (static_cast_int64_floor x n Hx0 Hxn ltac:(lia)) as (z & Hz & Hzr & Hzlo & Hzhi).
  exists z, ((t - t0_ s - Scalar_of_Z z * dt_ s) / dt_ s).
  assert ((t - t0_ s - Scalar_of_Z z * dt_ s) / dt_ s = x - Scalar_of_Z z) as Hu
    by (unfold x; by field).
  split; [|split; [lia|split; [done|split; [done|]]]].
  - unfold eval_interval. fold x. rewrite Hz. unfold mbind, Result_bind.
    rewrite decide_False by lia.
    rewrite decide_False; [done|].
    unfold size_t. rewrite Z.mod_small by lia. lia.
  - rewrite Hu. split; [|split].
    + by apply Qcle_minus_iff in Hzlo.
    + apply Qclt_minus_iff. apply Qclt_minus_iff in Hzhi.
      by replace (1 + - (x - Scalar_of_Z z)) with (Scalar_of_Z z + 1 + - x) by ring.
    + replace (Scalar_of_Z z + (x - Scalar_of_Z z)) with x by ring.
      rewrite Hmul. ring.
Qed.

(** X2.  At and beyond the end of the domain [eval] is constant: for
    [t ≥ t_max] it evaluates the last [K + 1] control points at [u = 1], and
    so returns what it returns at [t_max] (value, velocity, acceleration). *)
Theorem eval_clamps_at_end K (s : BSpline G) t vel acc :
  0 < dt_ s → (K + 1 ≤ length (ctrl_pts_ s))%nat →
  (Z.of_nat (length (ctrl_pts_ s)) < 2 ^ 63)%Z →
  (t - t0_ s) / dt_ s ≤ Scalar_of_Z (2 ^ 63 - 1) →
  t_max K s ≤ t →
  eval_interval K s t = inr ((Z.of_nat (length (ctrl_pts_ s)) - Z.of_nat K - 1)%Z, 1)
  ∧ eval K s t vel acc = eval K s (t_max K s) vel acc.
Proof.
  intros Hdt Hsize Hfit Hrange Ht.
  pose proof (eval_interval_above_clamps K s t Hdt Hsize Hfit Hrange Ht) as Heq.
  split; [done|]. apply eval_interval_ext. rewrite Heq. symmetry.
  apply eval_interval_above_clamps; try done.
  rewrite t_max_quotient by (done || lia). apply Scalar_of_Z_mono. lia.
Qed.

Lemma eval_interval_at_t_min K (s : BSpline G) :
  dt_ s ≠ 0 → (K + 1 ≤ length (ctrl_pts_ s))%nat →
  eval_interval K s (t_min s) = inr (0%Z, 0).
Proof.
  intros Hne Hsize. unfold eval_interval, t_min.
  replace ((t0_ s - t0_ s) / dt_ s) with (0 : Qc) by (by field).
  change (static_cast_int64 0) with (inr 0%Z : Result Z).
  unfold mbind, Result_bind. rewrite decide_False by lia.
  rewrite decide_False.
  2:{ unfold size_t. pose proof (Z.mod_le (0 + Z.of_nat K + 1) (2 ^ 64)). lia. }
  unfold mret, Result_ret. do 2 f_equal. rewrite Scalar_of_Z_0. by field.
Qed.

(** X3.  One interval or more before the start of the domain [eval] is
    constant: for [t ≤ t_min - dt] it evaluates the first [K + 1] control
    points at [u = 0], and so returns what it returns at [t_min]. *)
Theorem eval_clamps_before_start K (s : BSpline G) t vel acc :
  0 < dt_ s → (K + 1 ≤ length (ctrl_pts_ s))%nat →
  Scalar_of_Z (- 2 ^ 63) ≤ (t - t0_ s) / dt_ s →
  t ≤ t_min s - dt_ s →
  eval_interval K s t = inr (0%Z, 0)
  ∧ eval K s t vel acc = eval K s (t_min s) vel acc.
Proof.
  intros Hdt Hsize Hrange Ht.
  pose proof (eval_interval_below_clamps K s t Hdt Hrange Ht) as Heq.
  split; [done|]. apply eval_interval_ext.
  rewrite Heq, eval_interval_at_t_min; [done| |done]. by apply dt_pos_ne.
Qed.

(** X4.  Less than one interval before the start of the domain [eval] does
    not clamp: for [t_min - dt < t < t_min] the quotient [(t - t0)/dt] is
    rounded towards zero, so the first [K + 1] control points are evaluated
    at the negative location [u = (t - t0)/dt]. *)
Theorem eval_extrapolates_before_start K (s : BSpline G) t :
  0 < dt_ s → (K + 1 ≤ length (ctrl_pts_ s))%nat →
  t_min s - dt_ s < t → t < t_min s →
  eval_interval K s t = inr (0%Z, (t - t0_ s) / dt_ s) ∧ (t - t0_ s) / dt_ s < 0.
Proof. apply eval_interval_just_below_t_min. Qed.

(** X5.  A spline with at least [K + 1] control points never fails on a
    query whose quotient [(t - t0)/dt] fits [int64_t]: [eval] returns a value,
    writes [vel] and [acc] exactly when they were passed, and no Jacobian. *)
Theorem eval_returns K (s : BSpline G) t vel acc :
  dt_ s ≠ 0 →
  (K + 1 ≤ length (ctrl_pts_ s))%nat →
  (Z.of_nat (length (ctrl_pts_ s)) < 2 ^ 63)%Z →
  Scalar_of_Z (- 2 ^ 63) ≤ (t - t0_ s) / dt_ s →
  (t - t0_ s) / dt_ s ≤ Scalar_of_Z (2 ^ 63 - 1) →
  (is_Some acc → is_Some vel) →
  ∃ out, eval K s t vel acc = inr out
         ∧ (is_Some (out_vel out) ↔ is_Some vel)
         ∧ (is_Some (out_acc out) ↔ is_Some acc)
         ∧ out_der out = None.
Proof.
  intros _ Hsize Hfit Hlo Hhi Hva.
  destruct (eval_interval_in_range K s t Hlo Hhi Hsize Hfit) as (istar & u & Hi & Hr).
  destruct (window_in_range K s istar Hr) as (w & Hw & Hlen).
  destruct (bspline_eval_ctrl_delegates K w u vel acc None Hlen) as (g0 & _ & Hd).
  destruct (bspline_eval_no_der K g0 (derived_displacements w) u vel acc)
    as (vel' & acc' & Hout & Hv & Ha); [|done|].
  { rewrite derived_displacements_length. lia. }
  rewrite Hout in Hd. eexists. split; [by apply (eval_run K s t vel acc istar u w)|].
  simpl. by rewrite !fmap_is_Some.
Qed.

(** X6.  A spline built with fewer than [K + 1] control points fails on
    every query: with a size-violation error when the quotient is negative,
    and by dropping a negative count of control points otherwise. *)
Theorem eval_short_spline_fails K (s : BSpline G) t vel acc :
  dt_ s ≠ 0 →
  (length (ctrl_pts_ s) < K + 1)%nat →
  (Z.of_nat K + 1 < 2 ^ 63)%Z →
  Scalar_of_Z (- 2 ^ 63) ≤ (t - t0_ s) / dt_ s →
  (t - t0_ s) / dt_ s ≤ Scalar_of_Z (2 ^ 63 - 1) →
  eval K s t vel acc
  = inl (runtime_error ("bspline: ctrl_points range must be size K+1=" +:+ to_string (K + 1)
                        +:+ ", got " +:+ to_string (length (ctrl_pts_ s))))
  ∨ eval K s t vel acc
    = inl (negative_drop (Z.of_nat (length (ctrl_pts_ s)) - Z.of_nat K - 1)).
Proof.
  intros _ Hsize HK Hlo Hhi.
  set (a := (Z.of_nat (length (ctrl_pts_ s)) - Z.of_nat K - 1)%Z).
  assert (eval_interval K s t = inr (0%Z, 0) ∨ eval_interval K s t = inr (a, 1)) as Hi.
  { destruct (static_cast_int64_between (- 2 ^ 63) (2 ^ 63 - 1) _ ltac:(lia) ltac:(lia) Hlo Hhi)
      as (z & Hz & Hzlo & Hzhi).
    unfold eval_interval. rewrite Hz. unfold mbind, Result_bind.
    destruct (decide (z < 0)%Z); [by left|right].
    assert (size_t (z + Z.of_nat K + 1) = z + Z.of_nat K + 1)%Z as ->
      by (unfold size_t; apply Z.mod_small; lia).
    rewrite decide_True by lia. fold a.
    assert (int64_t (size_t a) = a) as ->; [|done].
    unfold size_t, int64_t.
    replace (a mod 2 ^ 64)%Z with (a + 2 ^ 64)%Z.
    - rewrite decide_False by lia. lia.
    - rewrite <-(Z.mod_add a 1 (2 ^ 64)) by lia. rewrite Z.mod_small; lia. }
  unfold eval. destruct Hi as [-> | ->]; simpl.
  - left. change (Z.to_nat 0) with 0%nat. rewrite drop_0, take_ge by lia.
    unfold bspline_eval_ctrl. by rewrite decide_True by lia.
  - right. unfold window. by rewrite decide_False by lia.
Qed.

(** X7.  The acceleration cannot be requested without the velocity: a call
    on a window of the right size that passes [acc] but no [vel] throws
    [std::bad_optional_access], in both forms of the evaluator. *)
Theorem bspline_eval_acc_requires_vel K (g0 : G) (vs : list Tangent) (ctrl : list G)
    u accv der :
  length vs = K → length ctrl = (K + 1)%nat →
  bspline_eval K g0 vs u None (Some accv) der = inl bad_optional_access
  ∧ bspline_eval_ctrl K ctrl u None (Some accv) der = inl bad_optional_access.
Proof.
  intros Hvs Hctrl. split; [by apply bspline_eval_acc_without_vel|].
  destruct (bspline_eval_ctrl_delegates K ctrl u None (Some accv) der Hctrl) as (c0 & _ & ->).
  apply bspline_eval_acc_without_vel. rewrite derived_displacements_length. lia.
Qed.

End SplineFacts.

(** Examples: a quadratic spline in R^3 with four control points, [t0 = 0]
    and [dt = 2], whose domain is [[0, 4)]. *)

Lemma eval_interval_in_domain_witness :
  let s : BSpline R3 := MkBSpline 0 2 [MkR3 0 0 0; MkR3 1 0 0; MkR3 2 1 0; MkR3 1 1 1] in
  ∃ istar u,
    eval_interval 2 s 1 = inr (istar, u)
    ∧ (0 ≤ istar ≤ Z.of_nat (length (ctrl_pts_ s)) - Z.of_nat 2 - 1)%Z
    ∧ Scalar_of_Z istar ≤ (1 - t0_ s) / dt_ s ∧ (1 - t0_ s) / dt_ s < Scalar_of_Z istar + 1
    ∧ 0 ≤ u ∧ u < 1
    ∧ 1 = t0_ s + (Scalar_of_Z istar + u) * dt_ s.
Proof.
  intros s. apply (eval_interval_in_domain 2 s 1).
  - compute_done.
  - simpl. lia.
  - compute_done.
  - compute_done.
  - compute_done.
Defined.

Lemma eval_clamps_at_end_witness :
  let s : BSpline R3 := MkBSpline 0 2 [MkR3 0 0 0; MkR3 1 0 0; MkR3 2 1 0; MkR3 1 1 1] in
  eval_interval 2 s (Q2Qc 5)
  = inr ((Z.of_nat (length (ctrl_pts_ s)) - Z.of_nat 2 - 1)%Z, 1)
  ∧ eval 2 s (Q2Qc 5) (Some [0; 0; 0]) None = eval 2 s (t_max 2 s) (Some [0; 0; 0]) None.
Proof.
  intros s. apply (eval_clamps_at_end 2 s (Q2Qc 5) (Some [0; 0; 0]) None).
  - compute_done.
  - simpl. lia.
  - compute_done.
  - compute_done.
  - compute_done.
Defined.

Lemma eval_clamps_before_start_witness :
  let s : BSpline R3 := MkBSpline 0 2 [MkR3 0 0 0; MkR3 1 0 0; MkR3 2 1 0; MkR3 1 1 1] in
  eval_interval 2 s (- 2) = inr (0%Z, 0)
  ∧ eval 2 s (- 2) (Some [0; 0; 0]) None = eval 2 s (t_min s) (Some [0; 0; 0]) None.
Proof.
  intros s. apply (eval_clamps_before_start 2 s (- 2) (Some [0; 0; 0]) None).
  - compute_done.
  - simpl. lia.
  - compute_done.
  - compute_done.
Defined.

Lemma eval_extrapolates_before_start_witness :
  let s : BSpline R3 := MkBSpline 0 2 [MkR3 0 0 0; MkR3 1 0 0; MkR3 2 1 0; MkR3 1 1 1] in
  eval_interval 2 s (- (1)) = inr (0%Z, (- (1) - t0_ s) / dt_ s)
  ∧ (- (1) - t0_ s) / dt_ s < 0.
Proof.
  intros s. apply (eval_extrapolates_before_start 2 s (- (1))).
  - compute_done.
  - simpl. lia.
  - compute_done.
  - compute_done.
Defined.

Lemma eval_returns_witness :
  let s : BSpline R3 := MkBSpline 0 2 [MkR3 0 0 0; MkR3 1 0 0; MkR3 2 1 0; MkR3 1 1 1] in
  ∃ out, eval 2 s 1 (Some [0; 0; 0]) None = inr out
         ∧ (is_Some (out_vel out) ↔ is_Some (Some [0; 0; 0]))
         ∧ (is_Some (out_acc out) ↔ is_Some (@None (list Scalar)))
         ∧ out_der out = None.
Proof.
  intros s. apply (eval_returns 2 s 1 (Some [0; 0; 0]) None).
  - compute_done.
  - simpl. lia.
  - compute_done.
  - compute_done.
  - compute_done.
  - intros [? [=]].
Defined.

(** Two control points are too few for degree 2. *)
Lemma eval_short_spline_fails_witness :
  let s : BSpline R3 := MkBSpline 0 2 [MkR3 0 0 0; MkR3 1 0 0] in
  eval 2 s 1 None None
  = inl (runtime_error ("bspline: ctrl_points range must be size K+1=" +:+ to_string (2 + 1)%nat
                        +:+ ", got " +:+ to_string (length (ctrl_pts_ s))))
  ∨ eval 2 s 1 None None
    = inl (negative_drop (Z.of_nat (length (ctrl_pts_ s)) - Z.of_nat 2 - 1)).
Proof.
  intros s. apply (eval_short_spline_fails 2 s 1 None None).
  - compute_done.
  - simpl. lia.
  - lia.
  - compute_done.
  - compute_done.
Defined.

Lemma bspline_eval_acc_requires_vel_witness :
  bspline_eval 2 (MkR3 0 0 0) [[1; 0; 0]; [1; 1; 0]] (1 / 2) None (Some [0; 0; 0]) None
  = inl bad_optional_access
  ∧ bspline_eval_ctrl 2 [MkR3 0 0 0; MkR3 1 0 0; MkR3 2 1 0] (1 / 2) None (Some [0; 0; 0]) None
    = inl bad_optional_access.
Proof.
  apply (bspline_eval_acc_requires_vel 2 (MkR3 0 0 0) [[1; 0; 0]; [1; 1; 0]]
           [MkR3 0 0 0; MkR3 1 0 0; MkR3 2 1 0] (1 / 2) [0; 0; 0] None).
  - reflexivity.
  - reflexivity.
Defined.

(** ** Right-plus and right-minus; constant and linear splines *)

Section GroupProperties.
Context {G : Type} `{!LieGroup G} `{!LieGroupLaws G}.

Lemma compose_inverse_l (g : G) : inverse g ∘G g = Identity.
Proof.
  assert (inverse g ∘G g
          = (inverse g ∘G g) ∘G (inverse g ∘G inverse (inverse g))) as ->
    by (by rewrite compose_inverse_r, compose_Identity_r).
  rewrite <-compose_assoc, (compose_assoc (inverse g) g (inverse g)).
  by rewrite compose_inverse_r, compose_Identity_r, compose_inverse_r.
Qed.

(** X8.  Right-plus and right-minus undo each other: [g + (h - g) = h], and
    [(g + a) - g = a] for every tangent [a] that the logarithm recovers from
    its exponential. *)
Theorem rplus_rminus (g h : G) (a : Tangent) :
  log (exp a : G) = a →
  rplus g (rminus h g) = h ∧ rminus (rplus g a) g = a.
Proof.
  intros Ha. unfold rplus, rminus. split.
  - by rewrite exp_log, compose_inverse_cancel.
  - by rewrite <-compose_assoc, compose_inverse_l, compose_Identity_l.
Qed.

Lemma vscale_zeros c n : vscale c (replicate n 0) = replicate n 0.
Proof. unfold vscale. by rewrite fmap_replicate, Qcmult_0_r. Qed.

Lemma cumulative_product_zero K (g : G) (vs : list Tangent) u :
  Forall (λ v, v = replicate Dof 0) vs → cumulative_product K g vs u = g.
Proof.
  unfold cumulative_product. generalize (seq 1 (length vs)) as js.
  intros js Hvs. revert js. induction Hvs as [|v vs -> _ IH]; intros js.
  - by destruct js.
  - destruct js as [|j js]; [done|]. simpl.
    by rewrite vscale_zeros, exp_zero, compose_Identity_r.
Qed.

Lemma derived_displacements_replicate K (g : G) :
  derived_displacements (replicate (S K) g) = replicate K (log (inverse g ∘G g)).
Proof.
  unfold derived_displacements. simpl.
  induction K as [|K IH]; [done|]. simpl. by rewrite <-IH.
Qed.

Lemma bspline_eval_ctrl_replicate K (g : G) u vel acc :
  log (Identity : G) = replicate Dof 0 → (is_Some acc → is_Some vel) →
  ∃ vel' acc',
    bspline_eval_ctrl K (replicate (K + 1) g) u vel acc None
    = inr (Outputs g vel' acc' None)
    ∧ (is_Some vel' ↔ is_Some vel) ∧ (is_Some acc' ↔ is_Some acc).
Proof.
  intros Hlog Hva.
  destruct (bspline_eval_ctrl_delegates K (replicate (K + 1) g) u vel acc None)
    as (g0 & Hg0 & ->); [by rewrite length_replicate|].
  rewrite Nat.add_1_r in *. simpl in Hg0. injection Hg0 as <-.
  rewrite derived_displacements_replicate, compose_inverse_l, Hlog.
  destruct (bspline_eval_no_der K g (replicate K (replicate Dof 0)) u vel acc)
    as (vel' & acc' & -> & Hv & Ha); [by rewrite length_replicate|done|].
  exists vel', acc'. split; [|done].
  by rewrite cumulative_product_zero by (by apply Forall_replicate).
Qed.

(** X9.  A spline window whose [K + 1] control points are all equal to [g]
    evaluates to [g] at every [u], for every degree [K]. *)
Theorem bspline_eval_ctrl_constant K (g : G) u vel acc :
  log (Identity : G) = replicate Dof 0 → (is_Some acc → is_Some vel) →
  ∃ vel' acc',
    bspline_eval_ctrl K (replicate (K + 1) g) u vel acc None
    = inr (Outputs g vel' acc' None).
Proof.
  intros Hlog Hva.
  destruct (bspline_eval_ctrl_replicate K g u vel acc Hlog Hva) as (vel' & acc' & Heq & _).
  by exists vel', acc'.
Qed.

(** X10.  The default-constructed spline is defined on [[0, 1)] and has the
    constant value [Identity()]: [t_min = 0], [t_max = 1], and [eval] returns
    the identity at every query time. *)
Theorem BSpline_default_constant K t :
  log (Identity : G) = replicate Dof 0 →
  (Z.of_nat K + 1 < 2 ^ 63)%Z →
  Scalar_of_Z (- 2 ^ 63) ≤ t → t ≤ Scalar_of_Z (2 ^ 63 - 1) →
  t_min (BSpline_default (G := G) K) = 0
  ∧ t_max K (BSpline_default (G := G) K) = 1
  ∧ eval K (BSpline_default K) t None None = inr (Outputs (Identity : G) None None None).
Proof.
  intros Hlog HK Hlo Hhi. split; [done|split].
  - unfold t_max, BSpline_default. simpl. rewrite length_replicate.
    replace (Z.of_nat (K + 1) - Z.of_nat K)%Z with 1%Z by lia.
    change (size_t 1) with 1%Z. rewrite Scalar_of_Z_1. ring.
  - assert ((t - t0_ (BSpline_default (G := G) K)) / dt_ (BSpline_default (G := G) K) = t)
      as Hq by (simpl; field; compute_done).
    destruct (eval_interval_in_range K (BSpline_default (G := G) K) t)
      as (istar & u & Hi & Hr).
    { by rewrite Hq. } { by rewrite Hq. }
    { simpl. by rewrite length_replicate. }
    { simpl. rewrite length_replicate. lia. }
    simpl in Hr. rewrite length_replicate in Hr.
    assert (istar = 0%Z) as -> by lia.
    destruct (bspline_eval_ctrl_replicate K (Identity : G) u None None Hlog)
      as (vel' & acc' & Hout & Hv & Ha); [done|].
    rewrite (is_Some_iff_None _ Hv), (is_Some_iff_None _ Ha) in Hout.
    assert (window K (BSpline_default (G := G) K) 0 = inr (replicate (K + 1) Identity)) as Hw.
    { unfold window. simpl. rewrite drop_0, take_ge; [done|].
      by rewrite length_replicate. }
    by rewrite (eval_run K _ t None None 0 u _ _ Hi Hw Hout).
Qed.

End GroupProperties.

Section LinearDegree.
Context {G : Type} `{!LieGroup G}.

(** X11.  A degree-1 window is right-plus interpolation between its two
    control points: it returns [c0 + u (c1 - c0)], that is
    [c0 * exp(u · log(c0⁻¹ c1))], for every [u] and in every group. *)
Theorem bspline_eval_ctrl_geodesic (c0 c1 : G) u :
  bspline_eval_ctrl 1 [c0; c1] u None None None
  = inr (Outputs (rplus c0 (vscale u (rminus c1 c0))) None None None).
Proof. apply bspline_eval_ctrl_linear. Qed.

End LinearDegree.

Lemma rplus_rminus_witness :
  rplus (MkR3 1 0 0) (rminus (MkR3 0 1 1) (MkR3 1 0 0)) = MkR3 0 1 1
  ∧ rminus (rplus (MkR3 1 0 0) [1; 2; 0]) (MkR3 1 0 0) = [1; 2; 0].
Proof.
  apply (rplus_rminus (MkR3 1 0 0) (MkR3 0 1 1) [1; 2; 0]).
  reflexivity.
Defined.

Lemma bspline_eval_ctrl_constant_witness :
  ∃ vel' acc',
    bspline_eval_ctrl 2 (replicate (2 + 1) (MkR3 1 2 0)) (1 / 2) (Some [0; 0; 0]) None None
    = inr (Outputs (MkR3 1 2 0) vel' acc' None).
Proof.
  apply (bspline_eval_ctrl_constant 2 (MkR3 1 2 0) (1 / 2) (Some [0; 0; 0]) None).
  - reflexivity.
  - intros [? [=]].
Defined.

Lemma BSpline_default_constant_witness :
  t_min (BSpline_default (G := R3) 2) = 0
  ∧ t_max 2 (BSpline_default (G := R3) 2) = 1
  ∧ eval 2 (BSpline_default 2) (1 / 2) None None
    = inr (Outputs (Identity : R3) None None None).
Proof.
  apply (BSpline_default_constant (G := R3) 2 (1 / 2)).
  - reflexivity.
  - lia.
  - compute_done.
  - compute_done.
Defined.

(** ** The derivative vectors of the evaluator *)

Lemma prefix_fill_step (f : nat → Scalar) (K m : nat) :
  (m < K)%nat →
  <[S m := f (S m)]> ((f <$> seq 0 (m + 1)) ++ replicate (K - m) 0)
  = (f <$> seq 0 (S m + 1)) ++ replicate (K - S m) 0.
Proof.
  intros Hm. replace (K - m)%nat with (S (K - S m)) by lia. simpl replicate.
  rewrite (insert_app_length _ _ (f (S m))); [|rewrite length_fmap, length_seq; lia].
  replace (S m + 1)%nat with (S (m + 1)) by lia.
  rewrite seq_snoc, fmap_app, <-app_assoc.
  by replace (0 + (m + 1))%nat with (S m) by lia.
Qed.

Lemma prefix_fill_vget (f : nat → Scalar) (m k : nat) rest :
  (k ≤ m)%nat → vget ((f <$> seq 0 (m + 1)) ++ rest) k = f k.
Proof.
  intros Hk. unfold vget.
  rewrite lookup_app_l by (rewrite length_fmap, length_seq; lia).
  by rewrite list_lookup_fmap, lookup_seq_lt by lia.
Qed.

Lemma power_vectors_prefix K u m :
  (m ≤ K)%nat →
  foldl (λ '(uvec, duvec, d2uvec) k,
      let uvec := <[k := u * vget uvec (k - 1)]> uvec in
      let duvec := <[k := Scalar_of_nat k * vget uvec (k - 1)]> duvec in
      (uvec, duvec, <[k := Scalar_of_nat k * vget duvec (k - 1)]> d2uvec))
    (<[0%nat := 1]> (replicate (K + 1) 0), <[0%nat := 0]> (replicate (K + 1) 0),
     <[0%nat := 0]> (replicate (K + 1) 0)) (seq 1 m)
  = (((λ k, u ^ k) <$> seq 0 (m + 1)) ++ replicate (K - m) 0,
     ((λ k, Scalar_of_nat k * u ^ (k - 1)) <$> seq 0 (m + 1)) ++ replicate (K - m) 0,
     ((λ k, Scalar_of_nat k * Scalar_of_nat (k - 1) * u ^ (k - 2)) <$> seq 0 (m + 1))
       ++ replicate (K - m) 0).
Proof.
  assert (Scalar_of_nat 0 = 0) as H0 by compute_done.
  induction m as [|m IH]; intros Hm.
  - rewrite Nat.add_1_r, Nat.sub_0_r. simpl. rewrite H0. repeat f_equal; ring.
  - rewrite seq_snoc, foldl_app, IH by lia. cbn [foldl].
    replace (1 + m - 1)%nat with m by lia. replace (1 + m)%nat with (S m) by lia.
    rewrite (prefix_fill_vget (λ k, u ^ k) m m) by lia.
    change (u * u ^ m) with ((λ k, u ^ k) (S m)).
    rewrite (prefix_fill_step (λ k, u ^ k)) by lia.
    rewrite (prefix_fill_vget (λ k, u ^ k) (S m) m) by lia.
    replace (Scalar_of_nat (S m) * u ^ m)
      with ((λ k, Scalar_of_nat k * u ^ (k - 1)) (S m))
      by (simpl; by rewrite Nat.sub_0_r).
    rewrite (prefix_fill_step (λ k, Scalar_of_nat k * u ^ (k - 1))) by lia.
    rewrite (prefix_fill_vget (λ k, Scalar_of_nat k * u ^ (k - 1)) (S m) m) by lia.
    replace (Scalar_of_nat (S m) * (Scalar_of_nat m * u ^ (m - 1)))
      with ((λ k, Scalar_of_nat k * Scalar_of_nat (k - 1) * u ^ (k - 2)) (S m)).
    + by rewrite (prefix_fill_step
                    (λ k, Scalar_of_nat k * Scalar_of_nat (k - 1) * u ^ (k - 2))) by lia.
    + simpl. rewrite Nat.sub_0_r. ring.
Qed.

(** X12.  When velocity and acceleration are requested, the vectors the
    evaluator builds beside the power vector are its first and second
    derivatives with respect to [u]: [duvec[k] = k u^(k-1)] and
    [d2uvec[k] = k (k-1) u^(k-2)]; with the velocity alone, [duvec] is the
    same. *)
Theorem power_vectors_derivatives K u :
  power_vectors K u true true = (powers K u, dpowers K u, d2powers K u)
  ∧ (power_vectors K u true false).1 = (powers K u, dpowers K u).
Proof.
  assert (power_vectors K u true true = (powers K u, dpowers K u, d2powers K u)) as Htt.
  { pose proof (power_vectors_prefix K u K (le_n K)) as Hpre.
    rewrite Nat.sub_diag, !app_nil_r in Hpre. exact Hpre. }
  split; [done|].
  transitivity ((power_vectors K u true true).1); [|by rewrite Htt].
  unfold power_vectors.
  rewrite !(foldl_project (λ s : list Scalar * list Scalar * list Scalar, s.1) _
              (λ '(uvec, duvec) k,
                 let uvec := <[k := u * vget uvec (k - 1)]> uvec in
                 (uvec, <[k := Scalar_of_nat k * vget uvec (k - 1)]> duvec))); [done|..].
  all: by intros [[uvec duvec] d2uvec] k.
Qed.

(** ** Partition of unity *)

Lemma vsum_replicate_0 n : vsum (replicate n 0) = 0.
Proof. induction n as [|n IH]; [done|]. unfold vsum in *. simpl. rewrite IH. ring. Qed.

Lemma vsum_app a b : vsum (a ++ b) = vsum a + vsum b.
Proof.
  unfold vsum. induction a as [|x a IH]; simpl; [ring|]. rewrite IH. ring.
Qed.

Lemma vsum_insert_zero (row : list Scalar) i x :
  (i < length row)%nat → vget row i = 0 → vsum (<[i:=x]> row) = vsum row + x.
Proof.
  revert i. induction row as [|y row IH]; intros i Hi Hy; simpl in Hi; [lia|].
  destruct i as [|i].
  - unfold vget in Hy. simpl in Hy. subst y. unfold vsum. simpl. ring.
  - unfold vsum in *. simpl. rewrite IH; [ring|lia|done].
Qed.

Lemma vsum_fmap_add {A : Type} (f g : A → Scalar) l :
  vsum ((λ j, f j + g j) <$> l) = vsum (f <$> l) + vsum (g <$> l).
Proof.
  unfold vsum. induction l as [|a l IH]; csimpl; [ring|]. rewrite IH. ring.
Qed.

Lemma vsum_fmap_mul {A : Type} x (f : A → Scalar) l :
  vsum ((λ j, x * f j) <$> l) = x * vsum (f <$> l).
Proof.
  unfold vsum. induction l as [|a l IH]; csimpl; [ring|]. rewrite IH. ring.
Qed.

Lemma vsum_fmap_0 {A : Type} (l : list A) : vsum ((λ _, 0) <$> l) = 0.
Proof. unfold vsum. induction l as [|a l IH]; csimpl; [done|]. rewrite IH. ring. Qed.

Lemma fmap_vget_seq (row : list Scalar) : vget row <$> seq 0 (length row) = row.
Proof.
  apply list_eq. intros i. rewrite list_lookup_fmap.
  destruct (decide (i < length row)%nat) as [Hi|Hi].
  - rewrite lookup_seq_lt by done. simpl. unfold vget.
    by destruct (lookup_lt_is_Some_2 row i Hi) as [y ->].
  - rewrite lookup_seq_ge, lookup_ge_None_2 by lia. done.
Qed.

Lemma dot_nil_r (row : list Scalar) : dot row [] = 0.
Proof. by destruct row. Qed.

Lemma dot_cons x row y col : dot (x :: row) (y :: col) = x * y + dot row col.
Proof. done. Qed.

Lemma dot_zeros (row : list Scalar) n : dot row (replicate n 0) = 0.
Proof.
  revert n. induction row as [|x row IH]; intros [|n]; try done.
  simpl replicate. rewrite dot_cons, IH. ring.
Qed.

Lemma dot_ones (row : list Scalar) : dot row (replicate (length row) 1) = vsum row.
Proof.
  induction row as [|x row IH]; [done|].
  simpl length. simpl replicate. rewrite dot_cons, IH. unfold vsum. simpl. ring.
Qed.

(** The entries of a row of a product [A * B] sum to that row of [A] against
    the row sums of [B]. *)
Lemma vsum_mmul_row (row : list Scalar) (B : Matrix) n :
  Forall (λ r : list Scalar, length r = n) B →
  vsum ((λ j, dot row (mcol B j)) <$> seq 0 n) = dot row (vsum <$> B).
Proof.
  intros HB. revert row. induction HB as [|b B Hb HB IH]; intros row.
  - rewrite dot_nil_r. erewrite list_fmap_ext; [apply vsum_fmap_0|].
    intros _ j _. simpl. apply dot_nil_r.
  - destruct row as [|x row].
    { erewrite list_fmap_ext; [apply vsum_fmap_0|]. by intros _ j _. }
    csimpl. rewrite dot_cons, <-IH.
    pose proof (fmap_vget_seq b) as Hbs. rewrite Hb in Hbs.
    rewrite <-Hbs at 1. rewrite <-vsum_fmap_mul, <-vsum_fmap_add. done.
Qed.

Lemma vsum_mmul (A B : Matrix) r n :
  shape (S r) n B → vsum <$> mmul A B = mvec A (vsum <$> B).
Proof.
  intros HB. unfold mmul, mvec. rewrite <-list_fmap_compose.
  apply list_fmap_ext. intros _ row _. simpl.
  unfold transpose. rewrite (shape_ncols _ _ _ HB), <-list_fmap_compose.
  apply vsum_mmul_row. by destruct HB.
Qed.

Lemma vsum_vadd (a b : list Scalar) :
  length a = length b → vsum (vadd a b) = vsum a + vsum b.
Proof.
  revert b. induction a as [|x a IH]; intros [|y b] Hlen; try done.
  unfold vadd, vsum in *. simpl. rewrite IH by (simpl in Hlen; lia). ring.
Qed.

Lemma zip_with_plus_zeros (l : list Scalar) n :
  length l = n → zip_with Qcplus l (replicate n 0) = l.
Proof.
  intros <-. induction l as [|x l IH]; [done|].
  cbn [length replicate zip_with]. rewrite IH. f_equal. ring.
Qed.

Lemma vsum_madd (A B : Matrix) r n :
  shape r n A → shape r n B →
  vsum <$> madd A B = zip_with Qcplus (vsum <$> A) (vsum <$> B).
Proof.
  intros [HAr HAc] [HBr HBc]. unfold madd. revert r B HAr HBr HBc.
  induction HAc as [|a A Ha HA IH]; intros r B HAr HBr HBc; [done|].
  destruct B as [|b B]; [simpl in *; lia|]. inversion HBc; subst.
  csimpl. rewrite vsum_vadd by congruence. f_equal.
  apply (IH (length A)); [done|simpl in *; lia|done].
Qed.

(** *** What the loops of [card_coeffmat] build *)

Lemma mset_app_length (L : Matrix) row rest m j x :
  length L = m → mset (L ++ row :: rest) m j x = L ++ <[j:=x]> row :: rest.
Proof.
  intros <-. unfold mset.
  by rewrite alter_app_r_alt, Nat.sub_diag by lia.
Qed.

Lemma mget_app_length (L : Matrix) row rest m j :
  length L = m → mget (L ++ row :: rest) m j = vget row j.
Proof.
  intros <-. apply mget_row.
  by rewrite lookup_app_r, Nat.sub_diag by lia.
Qed.

Lemma fill_row (f : nat → Scalar) (row : list Scalar) :
  foldl (λ row j, <[j := f j]> row) row (seq 0 (length row)) = f <$> seq 0 (length row).
Proof.
  assert (∀ m, (m ≤ length row)%nat →
            foldl (λ row j, <[j := f j]> row) row (seq 0 m)
            = (f <$> seq 0 m) ++ drop m row) as Hpre.
  { induction m as [|m IH]; intros Hm; [done|].
    rewrite seq_snoc, foldl_app, IH by lia. simpl.
    destruct (lookup_lt_is_Some_2 row m) as [y Hy]; [lia|].
    rewrite (drop_S _ _ _ Hy).
    rewrite (insert_app_length _ _ (f m)) by (rewrite length_fmap, length_seq; lia).
    by rewrite fmap_app, <-app_assoc. }
  rewrite Hpre by done. by rewrite drop_all, app_nil_r.
Qed.

Lemma copy_row_loop (km1 low : Matrix) i (src dst : list Scalar) :
  km1 !! i = Some src → low !! i = Some dst → length dst = length src →
  foldl (λ low j, mset low i j (mget km1 i j)) low (seq 0 (length src))
  = <[i := src]> low.
Proof.
  intros Hsrc Hdst Hlen.
  transitivity (<[i := foldl (λ row j, <[j := vget src j]> row) dst (seq 0 (length src))]> low).
  - generalize (seq 0 (length src)) as js. intros js. clear Hlen.
    revert low dst Hdst. induction js as [|j js IH]; intros low dst Hdst; simpl.
    + by rewrite list_insert_id.
    + rewrite (mset_row _ _ _ _ _ Hdst), (mget_row _ _ _ _ Hsrc).
      erewrite IH; [by rewrite list_insert_insert_eq|].
      apply list_lookup_insert_eq. by eapply lookup_lt_Some.
  - rewrite <-Hlen, fill_row, Hlen. by rewrite fmap_vget_seq.
Qed.

Lemma low_high_spec n (km1 : Matrix) :
  shape n n km1 →
  ∃ high,
    foldl (λ lh i,
        foldl (λ '(low, high) j,
          (mset low i j (mget km1 i j),
           mset high (i + 1) j (mget km1 i j)))
          lh (seq 0 n))
      (zeros (n + 1) n, zeros (n + 1) n) (seq 0 n)
    = (km1 ++ [replicate n 0], high)
    ∧ shape (n + 1) n high.
Proof.
  intros [Hr Hc].
  set (inner := λ (lh : Matrix * Matrix) (i : nat),
         foldl (λ '(low, high) j,
           (mset low i j (mget km1 i j), mset high (i + 1) j (mget km1 i j)))
           lh (seq 0 n)).
  assert (∀ lh i, shape (n + 1) n lh.2 → shape (n + 1) n (inner lh i).2) as Hhigh.
  { intros lh i Hlh. unfold inner. apply (foldl_invariant (λ p, shape (n + 1) n p.2)); [done|].
    intros [l h] j Hh. simpl in *. by apply shape_mset. }
  assert (∀ lh i, (inner lh i).1
                  = foldl (λ low j, mset low i j (mget km1 i j)) lh.1 (seq 0 n)) as Hlow.
  { intros lh i. unfold inner. apply foldl_project. by intros [l h] j. }
  assert (∀ m, (m ≤ n)%nat →
            (foldl inner (zeros (n + 1) n, zeros (n + 1) n) (seq 0 m)).1
            = take m km1 ++ replicate (n + 1 - m) (replicate n 0)) as Hpre.
  { induction m as [|m IH]; intros Hm.
    - simpl. by rewrite Nat.sub_0_r.
    - rewrite seq_snoc, foldl_app. simpl. rewrite Hlow, IH by lia.
      destruct (lookup_lt_is_Some_2 km1 m) as [src Hsrc]; [lia|].
      assert (length src = n) as Hsrcn by (eapply Forall_lookup_1 in Hc; eauto).
      assert (length (take m km1) = m) as Hpre by (rewrite length_take; lia).
      replace (n + 1 - m)%nat with (S (n + 1 - S m)) by lia. simpl replicate.
      pose proof (copy_row_loop km1
                    (take m km1 ++ replicate n 0
                                   :: replicate (n + 1 - S m) (replicate n 0))
                    m src (replicate n 0) Hsrc) as Hcopy.
      rewrite Hsrcn in Hcopy. rewrite Hcopy.
      + rewrite (insert_app_length _ _ src _ _ Hpre).
        by rewrite (take_S_r _ _ _ Hsrc), <-app_assoc.
      + by rewrite lookup_app_r, Hpre, Nat.sub_diag by lia.
      + by rewrite length_replicate. }
  exists (foldl inner (zeros (n + 1) n, zeros (n + 1) n) (seq 0 n)).2.
  split.
  - fold inner. rewrite (surjective_pairing (foldl inner _ _)) at 1.
    f_equal. rewrite Hpre by done.
    rewrite take_ge by lia. by replace (n + 1 - n)%nat with 1%nat by lia.
  - fold inner. apply (foldl_invariant (λ p, shape (n + 1) n p.2)); [apply shape_zeros|].
    intros lh i. apply Hhigh.
Qed.

Lemma left_right_spec n :
  ∃ L R,
    foldl (λ '(left_, right_) k,
        let left_ := mset left_ k (k + 1) (Scalar_of_nat (n - (k + 1)) / Scalar_of_nat n) in
        let left_ := mset left_ k k (1 - mget left_ k (k + 1)) in
        let right_ := mset right_ k (k + 1) (1 / Scalar_of_nat n) in
        let right_ := mset right_ k k (- mget right_ k (k + 1)) in
        (left_, right_))
      (zeros n (n + 1), zeros n (n + 1)) (seq 0 n)
    = (L, R)
    ∧ shape n (n + 1) L ∧ shape n (n + 1) R
    ∧ vsum <$> L = replicate n 1 ∧ vsum <$> R = replicate n 0.
Proof.
  set (z := replicate (n + 1) (0 : Qc)).
  set (step := λ '(left_, right_) k,
        let left_ := mset left_ k (k + 1) (Scalar_of_nat (n - (k + 1)) / Scalar_of_nat n) in
        let left_ := mset left_ k k (1 - mget left_ k (k + 1)) in
        let right_ := mset right_ k (k + 1) (1 / Scalar_of_nat n) in
        let right_ := mset right_ k k (- mget right_ k (k + 1)) in
        (left_, right_)).
  assert (∀ m, (m ≤ n)%nat →
            ∃ L R, foldl step (zeros n (n + 1), zeros n (n + 1)) (seq 0 m)
                   = (L ++ replicate (n - m) z, R ++ replicate (n - m) z)
                   ∧ length L = m ∧ length R = m
                   ∧ Forall (λ r : list Scalar, length r = (n + 1)%nat) L
                   ∧ Forall (λ r : list Scalar, length r = (n + 1)%nat) R
                   ∧ vsum <$> L = replicate m 1 ∧ vsum <$> R = replicate m 0) as Hpre.
  { induction m as [|m IH]; intros Hm.
    - exists [], []. simpl. rewrite Nat.sub_0_r. repeat split; done.
    - destruct IH as (L & R & Heq & HL & HR & HLc & HRc & HLs & HRs); [lia|].
      rewrite seq_snoc, foldl_app, Heq, Nat.add_0_l.
      cbn [foldl]. unfold step at 1. cbv beta iota zeta.
      replace (n - m)%nat with (S (n - S m)) by lia. cbn [replicate].
      set (a := Scalar_of_nat (n - (m + 1)) / Scalar_of_nat n).
      set (b := 1 / Scalar_of_nat n).
      assert (length z = (n + 1)%nat) as Hz by apply length_replicate.
      assert (∀ i, vget z i = 0) as Hz0.
      { intros i. unfold vget, z. destruct (decide (i < n + 1)%nat).
        - by rewrite lookup_replicate_2.
        - by rewrite lookup_replicate_None_2 || rewrite lookup_ge_None_2
            by (rewrite ?length_replicate; lia). }
      rewrite !(mset_app_length L _ _ m _ _ HL), !(mget_app_length L _ _ m _ HL).
      rewrite !(mset_app_length R _ _ m _ _ HR), !(mget_app_length R _ _ m _ HR).
      assert (∀ x, vget (<[(m + 1)%nat := x]> z) (m + 1) = x) as Hget.
      { intros x. unfold vget. by rewrite list_lookup_insert_eq by lia. }
      rewrite !Hget.
      assert (∀ x y, vsum (<[m := y]> (<[(m + 1)%nat := x]> z)) = x + y) as Hsum.
      { intros x y. rewrite vsum_insert_zero.
        - rewrite vsum_insert_zero by (rewrite ?Hz0; (lia || done)).
          unfold z. rewrite vsum_replicate_0. ring.
        - rewrite length_insert. lia.
        - unfold vget. rewrite list_lookup_insert_ne by lia. apply Hz0. }
      exists (L ++ [<[m := 1 - a]> (<[(m + 1)%nat := a]> z)]),
             (R ++ [<[m := - b]> (<[(m + 1)%nat := b]> z)]).
      rewrite <-!app_assoc. split; [done|].
      change ((1 : Qc) :: replicate m 1) with (replicate (S m) (1 : Qc)).
      change ((0 : Qc) :: replicate m 0) with (replicate (S m) (0 : Qc)).
      rewrite !length_app, !Forall_app, !fmap_app, !replicate_S_end.
      cbn [fmap list_fmap length].
      rewrite !Hsum, HLs, HRs, HL, HR.
      repeat split; try done; try lia.
      + repeat constructor. by rewrite !length_insert.
      + repeat constructor. by rewrite !length_insert.
      + do 2 f_equal. ring.
      + do 2 f_equal. ring. }
  destruct (Hpre n (le_n n)) as (L & R & Heq & HL & HR & HLc & HRc & HLs & HRs).
  exists L, R. fold step. rewrite Heq, Nat.sub_diag. simpl. rewrite !app_nil_r.
  repeat split; done.
Qed.

Lemma card_coeffmat_row_sums K :
  vsum <$> detail.card_coeffmat K = 1 :: replicate K 0.
Proof.
  induction K as [|K IH]; [compute_done|].
  pose proof (card_coeffmat_shape K) as Hs. rewrite Nat.add_1_r in Hs.
  destruct (low_high_spec (S K) _ Hs) as (high & Hlh & Hhigh).
  destruct (left_right_spec (S K)) as (L & R & Hlr & HLs & HRs & HL1 & HR0).
  cbn [detail.card_coeffmat].
  match type of Hlh with
  | ?lhs = _ =>
      match goal with
      | |- context [foldl ?f ?a ?l] => change (foldl f a l) with lhs
      end
  end.
  rewrite Hlh.
  match type of Hlr with
  | ?lhs = _ =>
      match goal with
      | |- context [foldl ?f ?a ?l] => change (foldl f a l) with lhs
      end
  end.
  rewrite Hlr.
  assert (shape (S K + 1) (S K) (detail.card_coeffmat K ++ [replicate (S K) 0])) as Hlow.
  { destruct Hs as [Hr Hc]. split.
    - rewrite length_app. simpl. lia.
    - apply Forall_app. split; [done|]. repeat constructor. apply length_replicate. }
  rewrite (vsum_madd _ _ (S K + 1) (S K + 1)).
  2:{ apply shape_mmul; [by destruct Hlow|by eapply shape_ncols]. }
  2:{ apply shape_mmul; [by destruct Hhigh|by eapply shape_ncols]. }
  rewrite (vsum_mmul _ L K (S K + 1) HLs), (vsum_mmul _ R K (S K + 1) HRs).
  rewrite HL1, HR0.
  assert (mvec high (replicate (S K) 0) = replicate (S K + 1) 0) as ->.
  { unfold mvec. destruct Hhigh as [Hr _]. rewrite <-Hr.
    generalize (S K) as n. clear. intros n.
    induction high as [|r h IHh]; [done|].
    cbn [fmap list_fmap length replicate]. f_equal; [apply dot_zeros|apply IHh]. }
  assert (mvec (detail.card_coeffmat K ++ [replicate (S K) 0]) (replicate (S K) 1)
          = vsum <$> (detail.card_coeffmat K ++ [replicate (S K) 0])) as ->.
  { unfold mvec. apply Forall_fmap_ext. destruct Hlow as [_ Hc].
    eapply Forall_impl; [exact Hc|]. intros r Hr. cbv beta in Hr |- *.
    rewrite <-Hr. apply dot_ones. }
  rewrite fmap_app, IH. cbn [fmap list_fmap]. rewrite vsum_replicate_0.
  change (((1 : Qc) :: replicate K 0) ++ [0 : Qc])
    with ((1 : Qc) :: (replicate K 0 ++ [0 : Qc])).
  rewrite <-replicate_S_end. apply zip_with_plus_zeros.
  cbn [length]. rewrite length_replicate. lia.
Qed.

Lemma cum_card_coeffmat_first_column K :
  mcol (detail.cum_card_coeffmat K) 0 = 1 :: replicate K 0.
Proof.
  rewrite <-card_coeffmat_row_sums, cum_card_coeffmat_rows. unfold mcol.
  rewrite <-list_fmap_compose. apply list_fmap_ext. intros _ row _. simpl.
  by rewrite running_sum_rtl_lookup, drop_0.
Qed.

Lemma Btilde_0 K u : Btilde K 0 u = 1.
Proof.
  unfold Btilde. rewrite cum_card_coeffmat_first_column. unfold powers.
  rewrite Nat.add_1_r. cbn [seq fmap list_fmap].
  rewrite dot_cons, dot_zeros. simpl. ring.
Qed.

(** X13.  Partition of unity in exact arithmetic, for every degree [K]: when
    the template parameter [Scalar] of [card_coeffmat] and [cum_card_coeffmat]
    is an exact field (here the rationals), the constant coefficients of the
    cardinal basis functions sum to one and the coefficients of every higher
    power of [u] sum to zero, so the cumulative basis function [B̃_0] is the
    constant 1 (the weight the evaluator gives to the base point [g_0]).
    [bspline_eval] instantiates the matrix at [double]; there these sums are
    rounded, and the statement says nothing about the rounded entries. *)
Theorem cardinal_basis_partition_of_unity K u :
  vsum <$> detail.card_coeffmat K = 1 :: replicate K 0
  ∧ mcol (detail.cum_card_coeffmat K) 0 = 1 :: replicate K 0
  ∧ Btilde K 0 u = 1.
Proof.
  split; [apply card_coeffmat_row_sums|].
  split; [apply cum_card_coeffmat_first_column|apply Btilde_0].
Qed.

(** ** Left invariance and time shifts *)

Section Invariance.
Context {G : Type} `{!LieGroup G} `{!LieGroupLaws G}.

Lemma inverse_compose (a b : G) : inverse (a ∘G b) = inverse b ∘G inverse a.
Proof.
  rewrite <-(compose_Identity_r (inverse (a ∘G b))).
  assert (Identity = (a ∘G b) ∘G (inverse b ∘G inverse a)) as ->.
  { rewrite compose_assoc, <-(compose_assoc b), compose_inverse_r.
    by rewrite compose_Identity_l, compose_inverse_r. }
  by rewrite <-compose_assoc, compose_inverse_l, compose_Identity_l.
Qed.

Lemma derived_displacements_translate (h : G) (ctrl : list G) :
  derived_displacements ((λ c, h ∘G c) <$> ctrl) = derived_displacements ctrl.
Proof.
  unfold derived_displacements.
  destruct ctrl as [|c0 ctrl]; [done|]. cbn [fmap list_fmap tail].
  revert c0. induction ctrl as [|c1 ctrl IH]; intros c0; [done|].
  cbn [fmap list_fmap zip_with]. f_equal; [|apply IH].
  by rewrite inverse_compose, compose_assoc, <-(compose_assoc (inverse h)),
    compose_inverse_l, compose_Identity_l.
Qed.

Lemma fold_step_translate uvec duvec d2uvec M (h : G) (v : Tangent) j g vel acc :
  fold_step uvec duvec d2uvec M (j, h ∘G g, vel, acc) v
  = st ← fold_step uvec duvec d2uvec M (j, g, vel, acc) v;
    mret (st.1.1.1, h ∘G st.1.1.2, st.1.2, st.2).
Proof.
  unfold fold_step. destruct vel as [velv|], acc as [accv|]; cbn;
    by rewrite ?compose_assoc.
Qed.

Lemma fold_loop_translate uvec duvec d2uvec M (h : G) (vs : list Tangent) j g vel acc :
  for_each (fold_step uvec duvec d2uvec M) vs (j, h ∘G g, vel, acc)
  = st ← for_each (fold_step uvec duvec d2uvec M) vs (j, g, vel, acc);
    mret (st.1.1.1, h ∘G st.1.1.2, st.1.2, st.2).
Proof.
  revert j g vel acc. induction vs as [|v vs IH]; intros j g vel acc; [done|].
  cbn [for_each]. rewrite fold_step_translate.
  destruct (fold_step uvec duvec d2uvec M (j, g, vel, acc) v)
    as [e|[[[j' g'] vel'] acc']]; [done|].
  apply IH.
Qed.

Lemma bspline_eval_translate K (h g0 : G) (vs : list Tangent) u vel acc :
  bspline_eval K (h ∘G g0) vs u vel acc None
  = out ← bspline_eval K g0 vs u vel acc None;
    mret (Outputs (h ∘G out_ret out) (out_vel out) (out_acc out) (out_der out)).
Proof.
  unfold bspline_eval. case_decide; [done|].
  destruct (power_vectors K u _ _) as [[uvec duvec] d2uvec].
  match goal with
  | |- context [mbind _ ?m] =>
    match type of m with Result (option Tangent * option Tangent) => destruct m as [e|[vel' acc']] end
  end; [done|].
  cbn [mbind Result_bind]. rewrite fold_loop_translate.
  destruct (for_each _ vs _) as [e|[[[j g] vel''] acc'']]; done.
Qed.

(** X14.  The spline is left-invariant: moving every control point by the
    same group element [h] on the left moves the value by [h] and leaves the
    body velocity and acceleration unchanged; a call that fails, fails in the
    same way.  This holds for the control-point evaluator and for [eval]. *)
Theorem bspline_left_invariant K (h : G) (ctrl : list G) t0 dt u t vel acc :
  bspline_eval_ctrl K ((λ c, h ∘G c) <$> ctrl) u vel acc None
  = (out ← bspline_eval_ctrl K ctrl u vel acc None;
     mret (Outputs (h ∘G out_ret out) (out_vel out) (out_acc out) (out_der out)))
  ∧ eval K (MkBSpline t0 dt ((λ c, h ∘G c) <$> ctrl)) t vel acc
    = (out ← eval K (MkBSpline t0 dt ctrl) t vel acc;
       mret (Outputs (h ∘G out_ret out) (out_vel out) (out_acc out) (out_der out))).
Proof.
  assert (∀ w u, bspline_eval_ctrl K ((λ c, h ∘G c) <$> w) u vel acc None
    = (out ← bspline_eval_ctrl K w u vel acc None;
       mret (Outputs (h ∘G out_ret out) (out_vel out) (out_acc out) (out_der out)))) as Hctrl.
  { intros w u'. destruct (decide (length w = (K + 1)%nat)) as [Hlen|Hlen].
    - destruct (bspline_eval_ctrl_delegates K w u' vel acc None Hlen) as (g0 & Hg0 & ->).
      destruct (bspline_eval_ctrl_delegates K ((λ c, h ∘G c) <$> w) u' vel acc None)
        as (g0' & Hg0' & ->); [by rewrite length_fmap|].
      rewrite list_lookup_fmap, Hg0 in Hg0'. injection Hg0' as <-.
      rewrite derived_displacements_translate. apply bspline_eval_translate.
    - unfold bspline_eval_ctrl. rewrite length_fmap.
      by rewrite !decide_True by done. }
  split; [apply Hctrl|].
  unfold eval.
  assert (eval_interval K (MkBSpline t0 dt ((λ c, h ∘G c) <$> ctrl)) t
          = eval_interval K (MkBSpline t0 dt ctrl) t) as ->.
  { unfold eval_interval. cbn [ctrl_pts_ t0_ dt_]. by rewrite length_fmap. }
  destruct (eval_interval _ _ _) as [e|[istar u']]; [done|].
  cbn [mbind Result_bind]. unfold window. cbn [ctrl_pts_ dt_].
  case_decide; [|done]. cbn [mbind Result_bind mret Result_ret].
  rewrite <-fmap_drop, <-fmap_take, Hctrl.
  by destruct (bspline_eval_ctrl K _ u' vel acc None) as [e|out].
Qed.

End Invariance.

Section TimeShift.
Context {G : Type} `{!LieGroup G}.

(** X15.  Only the time since [t0] matters: shifting the start time of the
    spline and the query time by the same amount changes the two ends of the
    domain by that amount and nothing in the result of [eval]. *)
Theorem eval_time_shift K (s : BSpline G) (c t : double) vel acc :
  let s' := MkBSpline (t0_ s + c) (dt_ s) (ctrl_pts_ s) in
  t_min s' = t_min s + c ∧ t_max K s' = t_max K s + c
  ∧ eval K s' (t + c) vel acc = eval K s t vel acc.
Proof.
  intros s'. unfold t_min, t_max, s'. cbn [t0_ dt_ ctrl_pts_].
  split; [done|]. split; [ring|].
  unfold eval, eval_interval, window. cbn [t0_ dt_ ctrl_pts_].
  replace (t + c - (t0_ s + c)) with (t - t0_ s) by ring.
  destruct (static_cast_int64 _) as [e|istar]; [done|].
  cbn [mbind Result_bind]. repeat case_decide; try done.
Qed.

End TimeShift.

Lemma bspline_left_invariant_witness :
  bspline_eval_ctrl 2 ((λ c, MkR3 0 0 1 ∘G c) <$> [MkR3 0 0 0; MkR3 1 0 0; MkR3 2 1 0])
    (1 / 2) (Some [0; 0; 0]) None None
  = (out ← bspline_eval_ctrl 2 [MkR3 0 0 0; MkR3 1 0 0; MkR3 2 1 0]
             (1 / 2) (Some [0; 0; 0]) None None;
     mret (Outputs (MkR3 0 0 1 ∘G out_ret out) (out_vel out) (out_acc out) (out_der out)))
  ∧ eval 2 (MkBSpline 0 2 ((λ c, MkR3 0 0 1 ∘G c) <$> [MkR3 0 0 0; MkR3 1 0 0; MkR3 2 1 0]))
      1 (Some [0; 0; 0]) None
    = (out ← eval 2 (MkBSpline 0 2 [MkR3 0 0 0; MkR3 1 0 0; MkR3 2 1 0])
               1 (Some [0; 0; 0]) None;
       mret (Outputs (MkR3 0 0 1 ∘G out_ret out) (out_vel out) (out_acc out) (out_der out))).
Proof.
  apply (bspline_left_invariant (G := R3) 2 (MkR3 0 0 1)
           [MkR3 0 0 0; MkR3 1 0 0; MkR3 2 1 0] 0 2 (1 / 2) 1 (Some [0; 0; 0]) None).
Defined.

(** ** The segments of a spline join up *)

(** *** The recursion of [card_coeffmat] in closed form *)

Lemma copy_row_loop_at (km1 high : Matrix) i i' (src dst : list Scalar) :
  km1 !! i = Some src → high !! i' = Some dst → length dst = length src →
  foldl (λ high j, mset high i' j (mget km1 i j)) high (seq 0 (length src))
  = <[i' := src]> high.
Proof.
  intros Hsrc Hdst Hlen.
  transitivity (<[i' := foldl (λ row j, <[j := vget src j]> row) dst (seq 0 (length src))]> high).
  - generalize (seq 0 (length src)) as js. intros js. clear Hlen.
    revert high dst Hdst. induction js as [|j js IH]; intros high dst Hdst; simpl.
    + by rewrite list_insert_id.
    + rewrite (mset_row _ _ _ _ _ Hdst), (mget_row _ _ _ _ Hsrc).
      erewrite IH; [by rewrite list_insert_insert_eq|].
      apply list_lookup_insert_eq. by eapply lookup_lt_Some.
  - rewrite <-Hlen, fill_row, Hlen. by rewrite fmap_vget_seq.
Qed.

Lemma low_high_exact n (km1 : Matrix) :
  shape n n km1 →
  foldl (λ lh i,
      foldl (λ '(low, high) j,
        (mset low i j (mget km1 i j),
         mset high (i + 1) j (mget km1 i j)))
        lh (seq 0 n))
    (zeros (n + 1) n, zeros (n + 1) n) (seq 0 n)
  = (km1 ++ [replicate n 0], replicate n 0 :: km1).
Proof.
  intros Hs. destruct (low_high_spec n km1 Hs) as (high & Heq & _).
  rewrite Heq. f_equal. apply (f_equal snd) in Heq. simpl in Heq. rewrite <-Heq.
  clear high Heq. destruct Hs as [Hr Hc].
  set (inner := λ (lh : Matrix * Matrix) (i : nat),
         foldl (λ '(low, high) j,
           (mset low i j (mget km1 i j), mset high (i + 1) j (mget km1 i j)))
           lh (seq 0 n)).
  assert (∀ lh i, (inner lh i).2
                  = foldl (λ high j, mset high (i + 1) j (mget km1 i j)) lh.2 (seq 0 n))
    as Hhigh.
  { intros lh i. unfold inner. apply foldl_project. by intros [l h] j. }
  assert (∀ m, (m ≤ n)%nat →
            (foldl inner (zeros (n + 1) n, zeros (n + 1) n) (seq 0 m)).2
            = replicate n 0 :: take m km1 ++ replicate (n - m) (replicate n 0)) as Hpre.
  { induction m as [|m IH]; intros Hm.
    - simpl. rewrite Nat.sub_0_r. unfold zeros. by rewrite Nat.add_1_r.
    - rewrite seq_snoc, foldl_app. simpl. rewrite Hhigh, IH by lia.
      destruct (lookup_lt_is_Some_2 km1 m) as [src Hsrc]; [lia|].
      assert (length src = n) as Hsrcn by (eapply Forall_lookup_1 in Hc; eauto).
      assert (length (replicate n (0 : Qc) :: take m km1) = (m + 1)%nat) as Hlen
        by (cbn [length]; rewrite length_take; lia).
      replace (n - m)%nat with (S (n - S m)) by lia. simpl replicate.
      pose proof (copy_row_loop_at km1
                    ((replicate n 0 :: take m km1) ++ replicate n 0
                                   :: replicate (n - S m) (replicate n 0))
                    m (m + 1) src (replicate n 0) Hsrc) as Hcopy.
      rewrite Hsrcn in Hcopy. cbn [app] in Hcopy. rewrite Hcopy.
      + change (replicate n (0 : Qc) :: take m km1 ++ ?x)
          with ((replicate n (0 : Qc) :: take m km1) ++ x).
        rewrite (insert_app_length _ _ src _ _ Hlen).
        by rewrite (take_S_r _ _ _ Hsrc), <-app_assoc.
      + change (replicate n (0 : Qc) :: take m km1 ++ ?x)
          with ((replicate n (0 : Qc) :: take m km1) ++ x).
        by rewrite lookup_app_r, Hlen, Nat.sub_diag by lia.
      + by rewrite length_replicate. }
  fold inner. rewrite Hpre by done.
  by rewrite take_ge, Nat.sub_diag, app_nil_r by lia.
Qed.

Lemma left_right_exact n :
  foldl (λ '(left_, right_) k,
      let left_ := mset left_ k (k + 1) (Scalar_of_nat (n - (k + 1)) / Scalar_of_nat n) in
      let left_ := mset left_ k k (1 - mget left_ k (k + 1)) in
      let right_ := mset right_ k (k + 1) (1 / Scalar_of_nat n) in
      let right_ := mset right_ k k (- mget right_ k (k + 1)) in
      (left_, right_))
    (zeros n (n + 1), zeros n (n + 1)) (seq 0 n)
  = (left_matrix n, right_matrix n).
Proof.
  set (z := replicate (n + 1) (0 : Qc)).
  set (step := λ '(left_, right_) k,
        let left_ := mset left_ k (k + 1) (Scalar_of_nat (n - (k + 1)) / Scalar_of_nat n) in
        let left_ := mset left_ k k (1 - mget left_ k (k + 1)) in
        let right_ := mset right_ k (k + 1) (1 / Scalar_of_nat n) in
        let right_ := mset right_ k k (- mget right_ k (k + 1)) in
        (left_, right_)).
  set (rowL := λ k : nat, let a := Scalar_of_nat (n - (k + 1)) / Scalar_of_nat n in
                 <[k := 1 - a]> (<[(k + 1)%nat := a]> z)).
  set (rowR := λ k : nat, let b := 1 / Scalar_of_nat n in
                 <[k := - b]> (<[(k + 1)%nat := b]> z)).
  assert (∀ m, (m ≤ n)%nat →
            foldl step (zeros n (n + 1), zeros n (n + 1)) (seq 0 m)
            = ((rowL <$> seq 0 m) ++ replicate (n - m) z,
               (rowR <$> seq 0 m) ++ replicate (n - m) z)) as Hpre.
  { induction m as [|m IH]; intros Hm.
    - simpl. by rewrite Nat.sub_0_r.
    - rewrite seq_snoc, foldl_app, IH, Nat.add_0_l by lia.
      cbn [foldl]. unfold step at 1. cbv beta iota zeta.
      replace (n - m)%nat with (S (n - S m)) by lia. cbn [replicate].
      assert (length (rowL <$> seq 0 m) = m) as HL by (by rewrite length_fmap, length_seq).
      assert (length (rowR <$> seq 0 m) = m) as HR by (by rewrite length_fmap, length_seq).
      rewrite !(mset_app_length _ _ _ m _ _ HL), !(mget_app_length _ _ _ m _ HL).
      rewrite !(mset_app_length _ _ _ m _ _ HR), !(mget_app_length _ _ _ m _ HR).
      assert (∀ x, vget (<[(m + 1)%nat := x]> z) (m + 1) = x) as Hget.
      { intros x. unfold vget, z.
        by rewrite list_lookup_insert_eq by (rewrite length_replicate; lia). }
      rewrite !Hget, !fmap_app, <-!app_assoc. done. }
  fold step. rewrite Hpre by done.
  by rewrite Nat.sub_diag, !app_nil_r.
Qed.

Lemma card_coeffmat_step K :
  detail.card_coeffmat (S K)
  = madd (mmul (detail.card_coeffmat K ++ [replicate (S K) 0]) (left_matrix (S K)))
         (mmul (replicate (S K) 0 :: detail.card_coeffmat K) (right_matrix (S K))).
Proof.
  pose proof (card_coeffmat_shape K) as Hs. rewrite Nat.add_1_r in Hs.
  pose proof (low_high_exact (S K) _ Hs) as Hlh.
  pose proof (left_right_exact (S K)) as Hlr.
  cbn [detail.card_coeffmat].
  match type of Hlh with
  | ?lhs = _ =>
      match goal with
      | |- context [foldl ?f ?a ?l] => change (foldl f a l) with lhs
      end
  end.
  rewrite Hlh.
  match type of Hlr with
  | ?lhs = _ =>
      match goal with
      | |- context [foldl ?f ?a ?l] => change (foldl f a l) with lhs
      end
  end.
  by rewrite Hlr.
Qed.

(** *** Entries of a product with a band matrix *)

Lemma dot_vsum (x y : list Scalar) : dot x y = vsum (zip_with Qcmult x y).
Proof. done. Qed.

Lemma dot_fmap_seq (x : list Scalar) (f : nat → Scalar) :
  dot x (f <$> seq 0 (length x)) = vsum ((λ k, vget x k * f k) <$> seq 0 (length x)).
Proof.
  rewrite dot_vsum. f_equal. rewrite <-(fmap_vget_seq x) at 1.
  rewrite zip_with_fmap_l, zip_with_fmap_r, zip_with_diag. done.
Qed.

Lemma vsum_single (g : nat → Scalar) j n :
  vsum ((λ k, if decide (k = j) then g k else 0) <$> seq 0 n)
  = if decide (j < n)%nat then g j else 0.
Proof.
  induction n as [|n IH]; [done|].
  rewrite seq_snoc, fmap_app, vsum_app, IH. cbn [fmap list_fmap]. unfold vsum at 1. simpl.
  repeat case_decide; subst; try lia; ring.
Qed.

Lemma vsum_single_S (g : nat → Scalar) j n :
  vsum ((λ k, if decide (S k = j) then g k else 0) <$> seq 0 n)
  = match j with O => 0 | S i => if decide (i < n)%nat then g i else 0 end.
Proof.
  destruct j as [|i].
  - transitivity (vsum ((λ _ : nat, 0) <$> seq 0 n)); [|apply vsum_fmap_0].
    done.
  - rewrite <-vsum_single. f_equal. apply list_fmap_ext.
    intros _ k _. repeat case_decide; (done || lia).
Qed.

Lemma vget_ge (x : list Scalar) j : (length x ≤ j)%nat → vget x j = 0.
Proof. intros Hj. unfold vget. by rewrite lookup_ge_None_2. Qed.

Lemma vget_band_row n k p q j :
  (k < n)%nat →
  vget (<[k := p]> (<[(k + 1)%nat := q]> (replicate (n + 1) 0))) j
  = if decide (k = j) then p else if decide (S k = j) then q else 0.
Proof.
  intros Hk. unfold vget. repeat case_decide; subst.
  - by rewrite list_lookup_insert_eq by (rewrite length_insert, length_replicate; lia).
  - rewrite list_lookup_insert_ne by lia.
    by rewrite Nat.add_1_r, list_lookup_insert_eq by (rewrite length_replicate; lia).
  - rewrite !list_lookup_insert_ne by lia.
    destruct (decide (j < n + 1)%nat).
    + by rewrite lookup_replicate_2.
    + by rewrite lookup_ge_None_2 by (rewrite length_replicate; lia).
Qed.

(** [x * B] for a band matrix [B] with [p k] on the diagonal and [q k] next
    to it. *)
Lemma dot_band_col n (p q : nat → Scalar) (x : list Scalar) j :
  length x = n →
  dot x (mcol ((λ k, <[k := p k]> (<[(k + 1)%nat := q k]> (replicate (n + 1) 0)))
                 <$> seq 0 n) j)
  = vget x j * p j + match j with O => 0 | S i => vget x i * q i end.
Proof.
  intros Hx. unfold mcol. rewrite <-list_fmap_compose.
  pose proof (dot_fmap_seq x) as Hdot. rewrite Hx in Hdot. rewrite Hdot. clear Hdot.
  transitivity (vsum ((λ k, (if decide (k = j) then vget x k * p k else 0)
                            + (if decide (S k = j) then vget x k * q k else 0))
                        <$> seq 0 n)).
  { f_equal. apply list_fmap_ext. intros i k Hk%lookup_seq. simpl.
    rewrite vget_band_row by lia. repeat case_decide; try lia; ring. }
  rewrite vsum_fmap_add, vsum_single, vsum_single_S.
  f_equal.
  - case_decide; [done|]. rewrite vget_ge by lia. ring.
  - destruct j as [|i]; [done|]. case_decide; [done|]. rewrite vget_ge by lia. ring.
Qed.

Lemma shape_band n (p q : nat → Scalar) :
  shape n (n + 1)
    ((λ k, <[k := p k]> (<[(k + 1)%nat := q k]> (replicate (n + 1) 0))) <$> seq 0 n).
Proof.
  split; [by rewrite length_fmap, length_seq|].
  apply Forall_fmap, Forall_forall. intros k _. simpl.
  by rewrite !length_insert, length_replicate.
Qed.

Lemma mcol_ge r c (B : Matrix) j :
  shape r c B → (c ≤ j)%nat → mcol B j = replicate r 0.
Proof.
  intros [<- Hc] Hj. unfold mcol. induction Hc as [|row B Hrow _ IH]; [done|].
  cbn [fmap list_fmap length replicate]. f_equal; [|done]. apply vget_ge. lia.
Qed.

Lemma vget_mmul_row r c (B : Matrix) (x : list Scalar) j :
  shape (S r) c B → vget (dot x <$> transpose B) j = dot x (mcol B j).
Proof.
  intros HB. unfold transpose. rewrite (shape_ncols _ _ _ HB), <-list_fmap_compose.
  unfold vget. rewrite list_lookup_fmap.
  destruct (decide (j < c)%nat) as [Hj|Hj].
  - by rewrite lookup_seq_lt.
  - rewrite lookup_ge_None_2 by (rewrite length_seq; lia). simpl.
    by rewrite (mcol_ge _ _ _ _ HB), dot_zeros by lia.
Qed.

Lemma vget_vadd (a b : list Scalar) j :
  length a = length b → vget (vadd a b) j = vget a j + vget b j.
Proof.
  intros Hab. unfold vget, vadd. rewrite lookup_zip_with.
  destruct (a !! j) as [x|] eqn:Ha; simpl.
  - destruct (lookup_lt_is_Some_2 b j) as [y ->]; [|done].
    rewrite <-Hab. by eapply lookup_lt_Some.
  - rewrite (lookup_ge_None_2 b j); [simpl; ring|].
    rewrite <-Hab. by apply lookup_ge_None_1.
Qed.

(** Row [i] of [card_coeffmat<K + 1>] from rows [i] and [i - 1] of
    [card_coeffmat<K>], here as two arbitrary rows [x] and [y]. *)
Lemma vget_card_row K (x y : list Scalar) j :
  length x = S K → length y = S K →
  vget (vadd (dot x <$> transpose (left_matrix (S K)))
             (dot y <$> transpose (right_matrix (S K)))) j
  = vget x j * (1 - Scalar_of_nat (S K - (j + 1)) / Scalar_of_nat (S K))
    + match j with
      | O => 0
      | S i => vget x i * (Scalar_of_nat (S K - (i + 1)) / Scalar_of_nat (S K))
      end
    + (vget y j * (- (1 / Scalar_of_nat (S K)))
       + match j with O => 0 | S i => vget y i * (1 / Scalar_of_nat (S K)) end).
Proof.
  intros Hx Hy.
  unfold left_matrix, right_matrix.
  rewrite vget_vadd.
  2:{ unfold transpose. rewrite !length_fmap, !length_seq.
      by rewrite !(shape_ncols K (S K + 1)) by apply shape_band. }
  rewrite (vget_mmul_row K (S K + 1)) by apply shape_band.
  rewrite (vget_mmul_row K (S K + 1)) by apply shape_band.
  rewrite (dot_band_col (S K)
             (λ k, 1 - Scalar_of_nat (S K - (k + 1)) / Scalar_of_nat (S K))
             (λ k, Scalar_of_nat (S K - (k + 1)) / Scalar_of_nat (S K))) by done.
  by rewrite (dot_band_col (S K) (λ _, - (1 / Scalar_of_nat (S K)))
                (λ _, 1 / Scalar_of_nat (S K))) by done.
Qed.

(** *** Column sums and first row of [card_coeffmat] *)

Lemma Scalar_of_nat_S (m : nat) : Scalar_of_nat (S m) = Scalar_of_nat m + 1.
Proof.
  unfold Scalar_of_nat. by rewrite Nat2Z.inj_succ, <-Z.add_1_r, Scalar_of_Z_add, Scalar_of_Z_1.
Qed.

Lemma zip_with_ext_Forall {A B C : Type} (P : A → Prop) (Q : B → Prop)
    (f g : A → B → C) l k :
  Forall P l → Forall Q k → (∀ x y, P x → Q y → f x y = g x y) →
  zip_with f l k = zip_with g l k.
Proof.
  intros Hl. revert k. induction Hl as [|x l Hx _ IH]; intros k Hk Hfg; [done|].
  destruct Hk as [|y k Hy Hk]; [done|]. simpl. f_equal; [by apply Hfg|by apply IH].
Qed.

Lemma fmap_zip_with {A B C D : Type} (g : C → D) (f : A → B → C) l k :
  g <$> zip_with f l k = zip_with (λ x y, g (f x y)) l k.
Proof.
  revert k. induction l as [|x l IH]; intros [|y k]; try done.
  csimpl. by rewrite IH.
Qed.

Lemma vsum_zip_with_add {A B : Type} (F : A → Scalar) (H : B → Scalar) l k :
  length l = length k →
  vsum (zip_with (λ x y, F x + H y) l k) = vsum (F <$> l) + vsum (H <$> k).
Proof.
  revert k. induction l as [|x l IH]; intros [|y k] Hlen; try done.
  cbn [zip_with fmap list_fmap]. unfold vsum in *. cbn [foldr].
  rewrite IH by (simpl in Hlen; lia). ring.
Qed.

Lemma vsum_band_combination (M : Matrix) j c (d : nat → Scalar) :
  vsum ((λ x, vget x j * c + match j with O => 0 | S i => vget x i * d i end) <$> M)
  = vsum (mcol M j) * c + match j with O => 0 | S i => vsum (mcol M i) * d i end.
Proof.
  induction M as [|row M IH].
  - unfold vsum. simpl. destruct j; ring.
  - unfold mcol in *. csimpl. unfold vsum in *. simpl. rewrite IH.
    destruct j; ring.
Qed.

Lemma vsum_mcol_ge r c (M : Matrix) j :
  shape r c M → (c ≤ j)%nat → vsum (mcol M j) = 0.
Proof. intros HM Hj. by rewrite (mcol_ge _ _ _ _ HM Hj), vsum_replicate_0. Qed.

Lemma card_coeffmat_rows_step K :
  detail.card_coeffmat (S K)
  = zip_with (λ x y, vadd (dot x <$> transpose (left_matrix (S K)))
                          (dot y <$> transpose (right_matrix (S K))))
      (detail.card_coeffmat K ++ [replicate (S K) 0])
      (replicate (S K) 0 :: detail.card_coeffmat K).
Proof.
  rewrite card_coeffmat_step. unfold madd, mmul.
  by rewrite zip_with_fmap_l, zip_with_fmap_r.
Qed.

(** The first row of [card_coeffmat<K + 1>] from that of [card_coeffmat<K>]. *)
Lemma card_coeffmat_first_row_step K j :
  mget (detail.card_coeffmat (S K)) 0 j
  = mget (detail.card_coeffmat K) 0 j
      * (1 - Scalar_of_nat (S K - (j + 1)) / Scalar_of_nat (S K))
    + match j with
      | O => 0
      | S i => mget (detail.card_coeffmat K) 0 i
               * (Scalar_of_nat (S K - (i + 1)) / Scalar_of_nat (S K))
      end.
Proof.
  pose proof (card_coeffmat_shape K) as [Hr Hc]. rewrite Nat.add_1_r in Hr, Hc.
  rewrite card_coeffmat_rows_step.
  destruct (detail.card_coeffmat K) as [|m0 M]; [done|].
  inversion Hc as [|? ? Hm0 _]; subst.
  assert (∀ (x : list Scalar) r i, mget (x :: r) 0 i = vget x i) as Hm by done.
  cbn [app zip_with]. rewrite !Hm.
  rewrite vget_card_row by (done || apply length_replicate).
  assert (∀ i, vget (replicate (S K) 0) i = 0) as Hz.
  { intros i. unfold vget. destruct (decide (i < S K)%nat).
    - by rewrite lookup_replicate_2.
    - by rewrite lookup_ge_None_2 by (rewrite length_replicate; lia). }
  rewrite !Hz. destruct j as [|i]; [ring|]. rewrite Hz, Hm. ring.
Qed.

(** The column sums of [card_coeffmat<K + 1>] from those of
    [card_coeffmat<K>]. *)
Lemma card_coeffmat_colsum_step K j :
  vsum (mcol (detail.card_coeffmat (S K)) j)
  = vsum (mcol (detail.card_coeffmat K) j)
      * (1 - Scalar_of_nat (S K - (j + 1)) / Scalar_of_nat (S K))
    + match j with
      | O => 0
      | S i => vsum (mcol (detail.card_coeffmat K) i)
               * (Scalar_of_nat (S K - (i + 1)) / Scalar_of_nat (S K))
      end
    + (vsum (mcol (detail.card_coeffmat K) j) * (- (1 / Scalar_of_nat (S K)))
       + match j with
         | O => 0
         | S i => vsum (mcol (detail.card_coeffmat K) i) * (1 / Scalar_of_nat (S K))
         end).
Proof.
  pose proof (card_coeffmat_shape K) as [Hr Hc]. rewrite Nat.add_1_r in Hr, Hc.
  rewrite card_coeffmat_rows_step.
  set (M := detail.card_coeffmat K) in *.
  assert (Forall (λ r : list Scalar, length r = S K) (M ++ [replicate (S K) 0])) as Hlow.
  { apply Forall_app. split; [done|]. repeat constructor. apply length_replicate. }
  assert (Forall (λ r : list Scalar, length r = S K) (replicate (S K) 0 :: M)) as Hhigh.
  { constructor; [apply length_replicate|done]. }
  unfold mcol at 1. rewrite fmap_zip_with.
  rewrite (zip_with_ext_Forall _ _ _
             (λ x y,
                (vget x j * (1 - Scalar_of_nat (S K - (j + 1)) / Scalar_of_nat (S K))
                 + match j with
                   | O => 0
                   | S i => vget x i * (Scalar_of_nat (S K - (i + 1)) / Scalar_of_nat (S K))
                   end)
                + (vget y j * (- (1 / Scalar_of_nat (S K)))
                   + match j with O => 0 | S i => vget y i * (1 / Scalar_of_nat (S K)) end))
             _ _ Hlow Hhigh).
  2:{ intros x y Hx Hy. by apply vget_card_row. }
  rewrite vsum_zip_with_add by (rewrite length_app; simpl; lia).
  rewrite (vsum_band_combination _ j _
             (λ i, Scalar_of_nat (S K - (i + 1)) / Scalar_of_nat (S K))).
  rewrite (vsum_band_combination _ j _ (λ _, 1 / Scalar_of_nat (S K))).
  assert (∀ i, vsum (mcol (M ++ [replicate (S K) 0]) i) = vsum (mcol M i)) as Hl.
  { intros i. unfold mcol. rewrite fmap_app, vsum_app. cbn [fmap list_fmap].
    assert (vget (replicate (S K) 0) i = 0) as ->.
    { unfold vget. destruct (decide (i < S K)%nat).
      - by rewrite lookup_replicate_2.
      - by rewrite lookup_ge_None_2 by (rewrite length_replicate; lia). }
    unfold vsum at 2. simpl. ring. }
  assert (∀ i, vsum (mcol (replicate (S K) 0 :: M) i) = vsum (mcol M i)) as Hh.
  { intros i. unfold mcol. cbn [fmap list_fmap].
    assert (vget (replicate (S K) 0) i = 0) as ->.
    { unfold vget. destruct (decide (i < S K)%nat).
      - by rewrite lookup_replicate_2.
      - by rewrite lookup_ge_None_2 by (rewrite length_replicate; lia). }
    unfold vsum at 1. cbn [foldr]. fold (vsum ((λ row : list Scalar, vget row i) <$> M)).
    ring. }
  rewrite !Hl, !Hh. destruct j as [|i]; [done|]. by rewrite Hl, Hh.
Qed.

(** Between two neighbouring intervals the basis functions are handed on:
    the sum of column [j + 1] (the value of basis function [j + 1] at
    [u = 1]) is the first entry of column [j] (the value of basis function
    [j] at [u = 0]), and column [0] sums to zero. *)
Lemma card_coeffmat_join K :
  (1 ≤ K)%nat →
  vsum (mcol (detail.card_coeffmat K) 0) = 0
  ∧ ∀ j, vsum (mcol (detail.card_coeffmat K) (S j)) = mget (detail.card_coeffmat K) 0 j.
Proof.
  induction K as [|K IH]; [lia|]. intros _.
  destruct (decide (K = 0)%nat) as [->|HK].
  { split; [compute_done|]. intros [|[|j]]; compute_done. }
  destruct IH as [IH0 IH]; [lia|].
  assert (∀ i, (K ≤ i)%nat → mget (detail.card_coeffmat K) 0 i = 0) as Hout.
  { intros i Hi. rewrite <-IH.
    apply (vsum_mcol_ge _ _ _ _ (card_coeffmat_shape K)). lia. }
  split.
  - rewrite card_coeffmat_colsum_step, IH0. ring.
  - intros j. rewrite card_coeffmat_colsum_step, card_coeffmat_first_row_step.
    rewrite !IH. destruct j as [|i].
    + rewrite IH0. replace (S K - (1 + 1))%nat with (K - 1)%nat by lia.
      replace (S K - (0 + 1))%nat with (S (K - 1)) by lia.
      rewrite (Scalar_of_nat_S (K - 1)). unfold Qcdiv. ring.
    + rewrite IH.
      set (Z1 := mget (detail.card_coeffmat K) 0 (S i)).
      set (Z0 := mget (detail.card_coeffmat K) 0 i).
      set (A := Scalar_of_nat (S K)).
      assert (Z1 * Scalar_of_nat (S K - (S i + 1))
              = Z1 * (Scalar_of_nat (S K - (S (S i) + 1)) + 1)) as H1.
      { destruct (decide (S i < K)%nat).
        - rewrite <-Scalar_of_nat_S. do 2 f_equal. lia.
        - unfold Z1. rewrite Hout by lia. ring. }
      assert (Z0 * Scalar_of_nat (S K - (i + 1))
              = Z0 * (Scalar_of_nat (S K - (S i + 1)) + 1)) as H0.
      { destruct (decide (i < K)%nat).
        - rewrite <-Scalar_of_nat_S. do 2 f_equal. lia.
        - unfold Z0. rewrite Hout by lia. ring. }
      transitivity (Z1 - (Z1 * (Scalar_of_nat (S K - (S (S i) + 1)) + 1)) * / A
                    + (Z0 * (Scalar_of_nat (S K - (S i + 1)) + 1)) * / A).
      * unfold Qcdiv. ring.
      * rewrite <-H1, <-H0. unfold Qcdiv. ring.
Qed.

(** *** The cumulative basis functions at the two ends of an interval *)

Lemma dot_zeros_l n (y : list Scalar) : dot (replicate n 0) y = 0.
Proof.
  revert y. induction n as [|n IH]; intros [|b y]; try done.
  cbn [replicate]. rewrite dot_cons, IH. ring.
Qed.

Lemma dot_ones_l (y : list Scalar) : dot (replicate (length y) 1) y = vsum y.
Proof.
  induction y as [|b y IH]; [done|].
  cbn [length replicate]. rewrite dot_cons, IH. unfold vsum. simpl. ring.
Qed.

Lemma powers_0 K : powers K 0 = 1 :: replicate K 0.
Proof.
  unfold powers. rewrite Nat.add_1_r. cbn [seq fmap list_fmap]. f_equal.
  assert (∀ s, (λ k, (0 : Qc) ^ k) <$> seq (S s) K = replicate K 0) as H; [|apply H].
  induction K as [|K IH]; intros s; [done|].
  cbn [seq fmap list_fmap replicate]. f_equal; [|apply IH].
  simpl. ring.
Qed.

Lemma powers_1 K : powers K 1 = replicate (K + 1) 1.
Proof.
  unfold powers. generalize 0%nat as s, (K + 1)%nat as n. intros s n. revert s.
  induction n as [|n IH]; intros s; [done|].
  cbn [seq fmap list_fmap replicate]. f_equal; [|apply IH].
  induction s as [|s IHs]; [done|]. simpl. rewrite IHs. ring.
Qed.

Lemma mcol_cum_card_coeffmat K j :
  mcol (detail.cum_card_coeffmat K) j
  = (λ row, vsum ((λ l, vget row l) <$> seq j (K + 1 - j))) <$> detail.card_coeffmat K.
Proof.
  rewrite cum_card_coeffmat_rows. unfold mcol. rewrite <-list_fmap_compose.
  apply Forall_fmap_ext. pose proof (card_coeffmat_shape K) as [_ Hc].
  eapply Forall_impl; [exact Hc|]. intros row Hrow. simpl.
  rewrite running_sum_rtl_lookup. fold (vsum (drop j row)). f_equal.
  rewrite <-(fmap_vget_seq row) at 1. rewrite Hrow, <-fmap_drop, drop_seq.
  done.
Qed.

Lemma vsum_swap (M : Matrix) (ls : list nat) :
  vsum ((λ row, vsum ((λ l, vget row l) <$> ls)) <$> M)
  = vsum ((λ l, vsum (mcol M l)) <$> ls).
Proof.
  induction M as [|row M IH].
  - cbn [fmap list_fmap mcol]. by rewrite vsum_fmap_0.
  - unfold mcol in *. cbn [fmap list_fmap]. unfold vsum at 1. cbn [foldr].
    fold (vsum ((λ row, vsum ((λ l, vget row l) <$> ls)) <$> M)). rewrite IH.
    rewrite <-vsum_fmap_add. f_equal.
Qed.

(** At [u = 0] the cumulative basis function reads the first row of the
    coefficient matrix, at [u = 1] its column sums. *)
Lemma Btilde_at_0 K j :
  Btilde K j 0 = vsum ((λ l, mget (detail.card_coeffmat K) 0 l) <$> seq j (K + 1 - j)).
Proof.
  unfold Btilde. rewrite powers_0, mcol_cum_card_coeffmat.
  pose proof (card_coeffmat_shape K) as [Hr _]. rewrite Nat.add_1_r in Hr.
  destruct (detail.card_coeffmat K) as [|m0 M]; [done|].
  cbn [fmap list_fmap]. rewrite dot_cons, dot_zeros_l.
  change ((λ l, mget (m0 :: M) 0 l) <$> seq j (K + 1 - j))
    with ((λ l, vget m0 l) <$> seq j (K + 1 - j)).
  ring.
Qed.

Lemma Btilde_at_1 K j :
  Btilde K j 1 = vsum ((λ l, vsum (mcol (detail.card_coeffmat K) l)) <$> seq j (K + 1 - j)).
Proof.
  unfold Btilde. rewrite powers_1, mcol_cum_card_coeffmat.
  pose proof (card_coeffmat_shape K) as [Hr _].
  rewrite <-Hr at 1.
  rewrite <-(length_fmap (λ row, vsum ((λ l, vget row l) <$> seq j (K + 1 - j)))
                (detail.card_coeffmat K)).
  rewrite dot_ones_l. apply vsum_swap.
Qed.

Lemma Btilde_join K j : (1 ≤ K)%nat → Btilde K (S j) 1 = Btilde K j 0.
Proof.
  intros HK. destruct (card_coeffmat_join K HK) as [_ Hjoin].
  rewrite Btilde_at_1, Btilde_at_0.
  rewrite (list_fmap_ext _ (λ l, mget (detail.card_coeffmat K) 0 (pred l))
             (seq (S j) (K + 1 - S j))).
  2:{ intros i l Hl%lookup_seq. destruct l as [|l]; [lia|]. apply Hjoin. }
  rewrite <-fmap_S_seq, <-list_fmap_compose.
  destruct (decide (j ≤ K)%nat) as [Hj|Hj].
  - replace (K + 1 - j)%nat with (S (K + 1 - S j)) by lia.
    rewrite seq_snoc, fmap_app, vsum_app. cbn [fmap list_fmap].
    replace (j + (K + 1 - S j))%nat with K by lia.
    assert (mget (detail.card_coeffmat K) 0 K = 0) as ->.
    { rewrite <-Hjoin. apply (vsum_mcol_ge _ _ _ _ (card_coeffmat_shape K)). lia. }
    unfold vsum at 3. simpl. ring_simplify. done.
  - replace (K + 1 - j)%nat with 0%nat by lia.
    by replace (K + 1 - S j)%nat with 0%nat by lia.
Qed.

Lemma Btilde_last_0 K : (1 ≤ K)%nat → Btilde K K 0 = 0.
Proof.
  intros HK. rewrite <-Btilde_join, Btilde_at_1 by done.
  by replace (K + 1 - S K)%nat with 0%nat by lia.
Qed.

(** *** Two neighbouring windows *)

Section SegmentsJoin.
Context {G : Type} `{!LieGroup G} `{!LieGroupLaws G}.

Lemma bspline_eval_ctrl_value K (ctrl : list G) g0 u :
  length ctrl = (K + 1)%nat → ctrl !! 0%nat = Some g0 →
  bspline_eval_ctrl K ctrl u None None None
  = inr (Outputs (cumulative_product K g0 (derived_displacements ctrl) u) None None None).
Proof.
  intros Hlen Hg0.
  destruct (bspline_eval_ctrl_delegates K ctrl u None None None Hlen) as (g0' & Hg0' & ->).
  rewrite Hg0 in Hg0'. injection Hg0' as <-.
  destruct (bspline_eval_no_der K g0 (derived_displacements ctrl) u None None)
    as (vel' & acc' & -> & Hv & Ha); [rewrite derived_displacements_length; lia|done|].
  by rewrite (is_Some_iff_None _ Hv), (is_Some_iff_None _ Ha).
Qed.

Lemma derived_displacements_take n (ctrl : list G) :
  derived_displacements (take (S n) ctrl) = take n (derived_displacements ctrl).
Proof.
  unfold derived_displacements. revert n.
  induction ctrl as [|a ctrl IH]; intros n; [by destruct n|].
  destruct ctrl as [|b ctrl]; [by destruct n|].
  destruct n as [|n]; [done|].
  specialize (IH n). cbn [take tail zip_with] in *. by rewrite IH.
Qed.

Lemma derived_displacements_Forall (ctrl : list G) :
  (∀ g : G, length (log g) = Dof) →
  Forall (λ v : Tangent, length v = Dof) (derived_displacements ctrl).
Proof.
  intros Hlog. apply Forall_lookup. intros i v Hv.
  apply lookup_zip_with_Some in Hv as (a & b & -> & _ & _). apply Hlog.
Qed.

Lemma shifted_product K (vs : list Tangent) :
  (1 ≤ K)%nat →
  ∀ s (g : G),
    foldl (λ g '(j, v), g ∘G exp (vscale (Btilde K j 1) v)) g
      (zip (seq (S s) (length vs)) vs)
    = foldl (λ g '(j, v), g ∘G exp (vscale (Btilde K j 0) v)) g
        (zip (seq s (length vs)) vs).
Proof.
  intros HK. induction vs as [|v vs IH]; intros s g; [done|].
  cbn [length seq zip zip_with foldl]. rewrite Btilde_join by done. apply IH.
Qed.

(** X16.  The segments of a spline of degree [K ≥ 1] join up: over [K + 2]
    consecutive control points, the segment on the first [K + 1] points ends
    (at [u = 1]) at the group element at which the segment on the last
    [K + 1] points begins (at [u = 0]).  Tangent vectors are taken to have
    [Dof] entries. *)
Theorem bspline_segments_join K (ctrl : list G) :
  (1 ≤ K)%nat → length ctrl = (K + 2)%nat → (∀ g : G, length (log g) = Dof) →
  ∃ g,
    bspline_eval_ctrl K (take (K + 1) ctrl) 1 None None None
    = inr (Outputs g None None None)
    ∧ bspline_eval_ctrl K (drop 1 ctrl) 0 None None None
      = inr (Outputs g None None None).
Proof.
  intros HK Hlen Hlog.
  destruct ctrl as [|c0 [|c1 rest]]; [simpl in Hlen; lia..|].
  assert (length rest = K) as Hrest by (simpl in Hlen; lia).
  destruct K as [|K']; [lia|].
  set (K := S K') in *.
  rewrite (bspline_eval_ctrl_value K (take (K + 1) (c0 :: c1 :: rest)) c0);
    [|rewrite length_take; simpl; lia|by rewrite Nat.add_1_r].
  rewrite (bspline_eval_ctrl_value K (drop 1 (c0 :: c1 :: rest)) c1);
    [|simpl; lia|done].
  eexists. split; [|reflexivity]. do 2 f_equal.
  rewrite Nat.add_1_r, derived_displacements_take. cbn [drop].
  unfold cumulative_product.
  remember (derived_displacements (c1 :: rest)) as D eqn:HeqD.
  assert (length D = K) as HD by (rewrite HeqD, derived_displacements_length; simpl; lia).
  assert (derived_displacements (c0 :: c1 :: rest) = log (inverse c0 ∘G c1) :: D) as ->
    by (by rewrite HeqD).
  pose proof (derived_displacements_Forall (c1 :: rest) Hlog) as HDof.
  rewrite <-HeqD in HDof. clear HeqD.
  destruct D as [|vl D1 _] using rev_ind; [simpl in HD; lia|].
  rewrite length_app in HD. cbn [length] in HD.
  assert (length D1 = K') as HD1 by (unfold K in HD; lia).
  apply Forall_app in HDof as [_ HDof]. inversion HDof as [|? ? Hvl _]; subst.
  assert (take K (log (inverse c0 ∘G c1) :: D1 ++ [vl]) = log (inverse c0 ∘G c1) :: D1) as ->.
  { unfold K. cbn [take]. by rewrite take_app_length. }
  cbn [length seq zip zip_with foldl].
  rewrite (Btilde_join K 0), Btilde_0, vscale_1, exp_log, compose_inverse_cancel by done.
  rewrite length_app. cbn [length]. rewrite Nat.add_1_r.
  rewrite seq_snoc, zip_with_app by (by rewrite length_seq).
  rewrite foldl_app. cbn [zip_with foldl].
  replace (1 + length D1)%nat with K by (unfold K; lia).
  rewrite Btilde_last_0, exp_vscale_0, compose_Identity_r by done.
  apply (shifted_product K D1 HK 1 c1).
Qed.

End SegmentsJoin.

Lemma bspline_segments_join_witness :
  ∃ g,
    bspline_eval_ctrl 2 (take (2 + 1) [MkR3 0 0 0; MkR3 1 0 0; MkR3 2 1 0; MkR3 1 1 1])
      1 None None None
    = inr (Outputs g None None None)
    ∧ bspline_eval_ctrl 2 (drop 1 [MkR3 0 0 0; MkR3 1 0 0; MkR3 2 1 0; MkR3 1 1 1])
        0 None None None
      = inr (Outputs g None None None).
Proof.
  apply (bspline_segments_join (G := R3) 2
           [MkR3 0 0 0; MkR3 1 0 0; MkR3 2 1 0; MkR3 1 1 1]).
  - lia.
  - reflexivity.
  - intros g. reflexivity.
Defined.

(** ** A spline of degree 1 passes through its control points *)

Lemma Scalar_of_Z_le_inv (a b : Z) : Scalar_of_Z a ≤ Scalar_of_Z b → (a ≤ b)%Z.
Proof.
  unfold Scalar_of_Z, Qcle. simpl. rewrite !Qred_correct. unfold Qle. simpl. lia.
Qed.

Lemma Scalar_of_Z_lt (a b : Z) : Scalar_of_Z a < Scalar_of_Z b ↔ (a < b)%Z.
Proof.
  unfold Scalar_of_Z, Qclt. simpl. rewrite !Qred_correct. unfold Qlt. simpl. lia.
Qed.

Lemma static_cast_int64_integer (z : Z) :
  (0 ≤ z < 2 ^ 63)%Z → static_cast_int64 (Scalar_of_Z z) = inr z.
Proof.
  intros Hz.
  destruct (static_cast_int64_floor (Scalar_of_Z z) (z + 1)) as (z' & -> & _ & Hlo & Hhi).
  - rewrite <-Scalar_of_Z_0. apply Scalar_of_Z_mono. lia.
  - apply Scalar_of_Z_lt. lia.
  - lia.
  - apply Scalar_of_Z_le_inv in Hlo.
    assert (Scalar_of_Z z' + 1 = Scalar_of_Z (z' + 1)) as Heq
      by (by rewrite Scalar_of_Z_add, Scalar_of_Z_1).
    rewrite Heq in Hhi. apply (proj1 (Scalar_of_Z_lt _ _)) in Hhi.
    f_equal. lia.
Qed.

Section LinearInterpolation.
Context {G : Type} `{!LieGroup G} `{!LieGroupLaws G}.

(** X17.  A spline of degree 1 passes through every control point: at the
    knot [t0 + i dt] the value of [eval] is control point [i], for every [i]
    from the first to the last control point. *)
Theorem eval_linear_interpolates (s : BSpline G) (i : nat) (c : G) :
  dt_ s ≠ 0 → (Z.of_nat (length (ctrl_pts_ s)) < 2 ^ 63)%Z →
  (2 ≤ length (ctrl_pts_ s))%nat → (∀ g : G, length (log g) = Dof) →
  ctrl_pts_ s !! i = Some c →
  eval 1 s (t0_ s + Scalar_of_nat i * dt_ s) None None = inr (Outputs c None None None).
Proof.
  intros Hne Hfit Hsize Hlog Hc.
  pose proof (lookup_lt_Some _ _ _ Hc) as Hi.
  assert (static_cast_int64 ((t0_ s + Scalar_of_nat i * dt_ s - t0_ s) / dt_ s)
          = inr (Z.of_nat i)) as Hcast.
  { replace ((t0_ s + Scalar_of_nat i * dt_ s - t0_ s) / dt_ s)
      with (Scalar_of_Z (Z.of_nat i)) by (unfold Scalar_of_nat; by field).
    apply static_cast_int64_integer. lia. }
  destruct (decide (i + 2 ≤ length (ctrl_pts_ s))%nat) as [Hin|Hlast].
  - destruct (lookup_lt_is_Some_2 (ctrl_pts_ s) (S i)) as [c' Hc']; [lia|].
    rewrite (eval_run 1 s _ None None (Z.of_nat i) 0 [c; c']
               (Outputs c None None None)); [done| | |].
    + unfold eval_interval. rewrite Hcast. unfold mbind, Result_bind.
      rewrite decide_False by lia.
      rewrite decide_False by (unfold size_t; rewrite Z.mod_small; lia).
      unfold mret, Result_ret. do 2 f_equal. unfold Scalar_of_nat. by field.
    + unfold window. rewrite decide_True by lia. rewrite Nat2Z.id.
      unfold mret, Result_ret. f_equal.
      rewrite (drop_S _ _ _ Hc), (drop_S _ _ _ Hc'). done.
    + rewrite bspline_eval_ctrl_linear.
      by rewrite exp_vscale_0, compose_Identity_r.
  - assert (S (length (ctrl_pts_ s) - 2) = i) as Hprev by lia.
    destruct (lookup_lt_is_Some_2 (ctrl_pts_ s) (length (ctrl_pts_ s) - 2))
      as [c' Hc']; [lia|].
    rewrite (eval_run 1 s _ None None (Z.of_nat (length (ctrl_pts_ s) - 2)) 1 [c'; c]
               (Outputs c None None None)); [done| | |].
    + unfold eval_interval. rewrite Hcast. unfold mbind, Result_bind.
      rewrite decide_False by lia.
      rewrite decide_True by (unfold size_t; rewrite Z.mod_small; lia).
      unfold mret, Result_ret. do 2 f_equal.
      unfold size_t, int64_t. rewrite Z.mod_small by lia.
      rewrite decide_True by lia. lia.
    + unfold window. rewrite decide_True by lia. rewrite Nat2Z.id.
      unfold mret, Result_ret. f_equal.
      rewrite <-Hprev in Hc.
      rewrite (drop_S _ _ _ Hc'), (drop_S _ _ _ Hc). done.
    + rewrite bspline_eval_ctrl_linear.
      by rewrite vscale_1, exp_log, compose_inverse_cancel.
Qed.

End LinearInterpolation.

Lemma eval_linear_interpolates_witness :
  let s : BSpline R3 := MkBSpline 0 2 [MkR3 0 0 0; MkR3 1 0 0; MkR3 2 1 0] in
  eval 1 s (t0_ s + Scalar_of_nat 1 * dt_ s) None None
  = inr (Outputs (MkR3 1 0 0) None None None).
Proof.
  intros s. apply (eval_linear_interpolates (G := R3) s 1 (MkR3 1 0 0)).
  - compute_done.
  - compute_done.
  - simpl. lia.
  - intros g. reflexivity.
  - reflexivity.
Defined.

(** ** The velocity of a degree-1 segment *)

Section LinearVelocity.
Context {G : Type} `{!LieGroup G}.

Lemma mvec_zeros (A : Matrix) n : mvec A (replicate n 0) = replicate (length A) 0.
Proof.
  unfold mvec. induction A as [|row A IH]; [done|].
  cbn [fmap list_fmap length replicate]. by rewrite dot_zeros, IH.
Qed.

Lemma vadd_zeros_l (v : list Scalar) : vadd (replicate (length v) 0) v = v.
Proof.
  unfold vadd. induction v as [|x v IH]; [done|].
  cbn [length replicate zip_with]. rewrite IH. f_equal. ring.
Qed.

Lemma setZero_replicate (v : list Scalar) : setZero v = replicate (length v) 0.
Proof. unfold setZero. induction v as [|x v IH]; [done|]. csimpl. by rewrite IH. Qed.

(** X18.  On a degree-1 segment the body velocity does not depend on [u]: it
    is the displacement [c1 - c0] between the two control points (per unit
    of [u]), while the value runs along the geodesic [c0 + u (c1 - c0)].
    Tangent vectors and adjoint matrices are taken to have [Dof] entries and
    rows. *)
Theorem bspline_eval_ctrl_linear_velocity (c0 c1 : G) u (w : Tangent) :
  (∀ g : G, length (Ad g) = Dof) → (∀ g : G, length (log g) = Dof) →
  bspline_eval_ctrl 1 [c0; c1] u (Some w) None None
  = inr (Outputs (rplus c0 (vscale u (rminus c1 c0))) (Some (rminus c1 c0)) None None).
Proof.
  intros HAd Hlog.
  destruct (bspline_eval_ctrl_delegates 1 [c0; c1] u (Some w) None None eq_refl)
    as (g0 & [= <-] & ->).
  unfold derived_displacements. cbn [tail zip_with].
  unfold bspline_eval. rewrite decide_False by (simpl; lia).
  rewrite cum_card_coeffmat_1.
  cbn [has_value orb].
  assert (power_vectors 1 u true false = ([1; u], [0; 1], [0; 0])) as ->.
  { unfold power_vectors. cbn. unfold vget. cbn.
    assert (Scalar_of_nat 1 = 1) as -> by compute_done.
    repeat f_equal; ring. }
  assert (transpose [[1; 0]; [0; 1]] = [[1; 0]; [0; 1 : Qc]]) as -> by compute_done.
  cbn [value mbind Result_bind mret Result_ret for_each fmap option_fmap option_map].
  unfold fold_step.
  cbn [has_value orb value mbind Result_bind mret Result_ret mrow lookup list_lookup default id].
  unfold rplus, rminus. do 2 f_equal.
  - do 3 f_equal. unfold dot. simpl. ring.
  - f_equal. rewrite setZero_replicate, mvec_zeros, HAd, <-(Hlog (inverse c0 ∘G c1)).
    assert (dot [0; 1] [0; 1 : Qc] = 1) as -> by compute_done.
    rewrite vscale_1. apply vadd_zeros_l.
Qed.

End LinearVelocity.

Lemma bspline_eval_ctrl_linear_velocity_witness :
  bspline_eval_ctrl 1 [MkR3 1 0 0; MkR3 0 1 1] (1 / 2) (Some [0; 0; 0]) None None
  = inr (Outputs (rplus (MkR3 1 0 0) (vscale (1 / 2) (rminus (MkR3 0 1 1) (MkR3 1 0 0))))
           (Some (rminus (MkR3 0 1 1) (MkR3 1 0 0))) None None).
Proof.
  apply (bspline_eval_ctrl_linear_velocity (MkR3 1 0 0) (MkR3 0 1 1) (1 / 2) [0; 0; 0]).
  - intros g. reflexivity.
  - intros g. reflexivity.
Defined.
